(** * fuz_gitops: the dependency graph of [src/lib/dependency_graph.ts]

    A shallow embedding of [DependencyGraph] and [DependencyGraphBuilder]:
    graph construction from package manifests, the name queries, the
    topological sort used for the publishing order, cycle detection by
    dependency type, the analysis report and the JSON snapshot.

    JavaScript [Map] and [Set] iterate in insertion order, and that order
    decides the order of the sort items and of the depth-first search, so both
    are embedded as insertion-ordered lists. *)

From Stdlib Require Import String List Bool Arith Lia Permutation Relations.
From Stdlib Require Import ZArith DecimalString.
Import ListNotations.
Open Scope string_scope.
Open Scope list_scope.

(** ** JavaScript containers *)

(** [Map<string, V>]: an association list in insertion order.  [set] on a key
    that is present replaces the value and keeps the key's position; on a new
    key it appends. *)
Module JsMap.

Definition t (V : Type) := list (string * V).

Definition empty {V : Type} : t V := [].

Fixpoint get {V : Type} (m : t V) (k : string) : option V :=
  match m with
  | [] => None
  | (k', v) :: m' => if String.eqb k' k then Some v else get m' k
  end.

Definition has {V : Type} (m : t V) (k : string) : bool :=
  match get m k with Some _ => true | None => false end.

Fixpoint set {V : Type} (m : t V) (k : string) (v : V) : t V :=
  match m with
  | [] => [(k, v)]
  | (k', v') :: m' =>
      if String.eqb k' k then (k', v) :: m' else (k', v') :: set m' k v
  end.

Definition keys {V : Type} (m : t V) : list string := map fst m.
Definition values {V : Type} (m : t V) : list V := map snd m.
Definition entries {V : Type} (m : t V) : list (string * V) := m.

End JsMap.

(** [Set<string>]: a list in insertion order without repetition. *)
Module JsSet.

Definition t := list string.

Definition empty : t := [].

Definition has (s : t) (x : string) : bool := existsb (String.eqb x) s.

Definition add (s : t) (x : string) : t := if has s x then s else s ++ [x].

Definition delete (s : t) (x : string) : t :=
  filter (fun y => negb (String.eqb x y)) s.

End JsSet.

(** ** Data model *)

(** [DEPENDENCY_TYPE] *)
Inductive DependencyType := PROD | PEER | DEV.

Definition DependencyType_eqb (a b : DependencyType) : bool :=
  match a, b with
  | PROD, PROD | PEER, PEER | DEV, DEV => true
  | _, _ => false
  end.

Module DependencySpec.
Record t := mk {
  type : DependencyType;
  version : string;
  resolved : option string
}.
End DependencySpec.

(** The manifest of a package.  A [Record<string, string>] section is given by
    its [Object.entries], a section that is absent by [None]. *)
Module PackageJson.
Record t := mk {
  version : option string;
  private : option bool;
  dependencies : option (list (string * string));
  devDependencies : option (list (string * string));
  peerDependencies : option (list (string * string))
}.
End PackageJson.

Module Library.
Record t := mk {
  name : string;
  package_json : PackageJson.t
}.
End Library.

Module LocalRepo.
Record t := mk { library : Library.t }.
End LocalRepo.

Module DependencyNode.
Record t := mk {
  name : string;
  version : string;
  repo : option LocalRepo.t;
  dependencies : JsMap.t DependencySpec.t;
  dependents : JsSet.t;
  publishable : bool
}.

(** [node.dependents.add(x)] on the node object. *)
Definition add_dependent (node : t) (x : string) : t :=
  {| name := name node;
     version := version node;
     repo := repo node;
     dependencies := dependencies node;
     dependents := JsSet.add (dependents node) x;
     publishable := publishable node |}.
End DependencyNode.

Module DependencyGraphJson.
Record node := mk_node {
  name : string;
  version : string;
  dependencies : list (string * DependencySpec.t);
  dependents : list string;
  publishable : bool
}.
Record edge := mk_edge { from : string; to : string }.
Record t := mk {
  nodes : list node;
  edges : list edge
}.
End DependencyGraphJson.

(** ** Outcome of a call: a value or a thrown [Error] *)

Inductive Completion (E A : Type) :=
| Return (a : A)
| Throw (e : E).
Arguments Return {E A} a.
Arguments Throw {E A} e.

(** ** [topological_sort] of [@fuzdev/fuz_util/sort.js]

    The package is imported by [dependency_graph.ts] and is not among the
    sources.  The shapes of its items and of its result are those that
    [DependencyGraph.topological_sort] builds and reads; the algorithm is
    modelled from the specification. *)

Module Sort.

Record Sortable := mk { id : string; depends_on : list string }.

Definition ids (items : list Sortable) : list string := map id items.

Definition mem (x : string) (l : list string) : bool :=
  existsb (String.eqb x) l.

(** An item has in-degree zero among the pending items when none of its
    dependencies is pending. *)
Definition ready (pending : list Sortable) (item : Sortable) : bool :=
  forallb (fun d => negb (mem d (ids pending))) (depends_on item).

(** The first element that satisfies [p], and the list without it. *)
Fixpoint extract {A : Type} (p : A -> bool) (l : list A)
  : option (A * list A) :=
  match l with
  | [] => None
  | x :: l' =>
      if p x then Some (x, l')
      else match extract p l' with
           | Some (y, rest) => Some (y, x :: rest)
           | None => None
           end
  end.

(** The error of a failed sort: the ids that were never resolved. *)
Record CycleError := mk_error { unresolved : list string }.

Inductive Result :=
| Ok (sorted : list Sortable)
| Failed (error : CycleError).

Definition finish (pending sorted : list Sortable) : Result :=
  match pending with
  | [] => Ok sorted
  | _ :: _ => Failed (mk_error (ids pending))
  end.

(** Modelled from the spec: one round of the sort removes the first pending
    item, in insertion order, that has no pending dependency and appends it
    to the sorted items; the sort stops when no pending item is ready. *)
Fixpoint kahn (rounds : nat) (pending sorted : list Sortable) : Result :=
  match rounds with
  | 0 => finish pending sorted
  | S rounds' =>
      match extract (ready pending) pending with
      | Some (item, rest) => kahn rounds' rest (sorted ++ [item])
      | None => finish pending sorted
      end
  end.

(** Modelled from the spec: [topological_sort] of the package
    [@fuzdev/fuz_util/sort.js], which is imported by
    [dependency_graph.ts] and is not part of the sources.  The spec
    describes it as the repeated removal of zero-indegree nodes over the
    filtered subgraph, ties broken by original insertion order, failing
    when nodes remain unresolved after no more zero-indegree nodes
    exist, with an error that carries the unresolved names.  Each round
    removes the first pending item, in insertion order, none of whose
    dependencies is pending; [length items] rounds are enough to empty
    the list. *)
Definition topological_sort (items : list Sortable) (label : string)
  : Result :=
  kahn (length items) items [].

End Sort.

(** ** [DependencyGraph] *)

Module DependencyGraph.

Record t := mk {
  nodes : JsMap.t DependencyNode.t;
  edges : JsMap.t JsSet.t  (* pkg -> dependents *)
}.

(** [constructor()] *)
Definition new : t := {| nodes := JsMap.empty; edges := JsMap.empty |}.

(** *** Construction *)

(** [o || EMPTY_OBJECT] followed by [Object.entries]. *)
Definition entries_or_empty (o : option (list (string * string)))
  : list (string * string) :=
  match o with Some es => es | None => [] end.

(** [version || '0.0.0']: the empty string is falsy as well. *)
Definition version_or_default (v : option string) : string :=
  match v with
  | None => "0.0.0"
  | Some s => if String.eqb s "" then "0.0.0" else s
  end.

(** [!!private === false] *)
Definition is_publishable (p : option bool) : bool :=
  match p with
  | Some true => false
  | _ => true
  end.

(** The three loops that fill [node.dependencies]. *)
Definition add_deps (ty : DependencyType)
    (m : JsMap.t DependencySpec.t) (es : list (string * string))
  : JsMap.t DependencySpec.t :=
  fold_left
    (fun m e => JsMap.set m (fst e) (DependencySpec.mk ty (snd e) None))
    es m.

Definition add_dev_deps
    (m : JsMap.t DependencySpec.t) (es : list (string * string))
  : JsMap.t DependencySpec.t :=
  fold_left
    (fun m e =>
       if negb (JsMap.has m (fst e))
       then JsMap.set m (fst e) (DependencySpec.mk DEV (snd e) None)
       else m)
    es m.

Definition merge_dependencies (pj : PackageJson.t)
  : JsMap.t DependencySpec.t :=
  let deps := entries_or_empty (PackageJson.dependencies pj) in
  let dev_deps := entries_or_empty (PackageJson.devDependencies pj) in
  let peer_deps := entries_or_empty (PackageJson.peerDependencies pj) in
  add_dev_deps (add_deps PEER (add_deps PROD JsMap.empty deps) peer_deps)
               dev_deps.

(** The node built by one iteration of the first pass. *)
Definition make_node (repo : LocalRepo.t) : DependencyNode.t :=
  let library := LocalRepo.library repo in
  let pj := Library.package_json library in
  {| DependencyNode.name := Library.name library;
     DependencyNode.version := version_or_default (PackageJson.version pj);
     DependencyNode.repo := Some repo;
     DependencyNode.dependencies := merge_dependencies pj;
     DependencyNode.dependents := JsSet.empty;
     DependencyNode.publishable := is_publishable (PackageJson.private pj) |}.

(** First pass: create nodes. *)
Definition create_node (this : t) (repo : LocalRepo.t) : t :=
  let node := make_node repo in
  {| nodes := JsMap.set (nodes this) (DependencyNode.name node) node;
     edges := JsMap.set (edges this) (DependencyNode.name node) JsSet.empty |}.

Definition first_pass (this : t) (repos : list LocalRepo.t) : t :=
  fold_left create_node repos this.

(** Body of the inner loop of the second pass.  [None] is the [TypeError]
    of [this.edges.get(dep_name)!.add] when [edges] has no entry. *)
Definition add_edge (node_name : string) (this : t) (dep_name : string)
  : option t :=
  match JsMap.get (nodes this) dep_name with
  | None => Some this
  | Some dep_node =>
      match JsMap.get (edges this) dep_name with
      | None => None
      | Some tos =>
          Some {| nodes := JsMap.set (nodes this) dep_name
                             (DependencyNode.add_dependent dep_node node_name);
                  edges := JsMap.set (edges this) dep_name
                             (JsSet.add tos node_name) |}
      end
  end.

(** A loop whose body may throw. *)
Fixpoint for_each {A S : Type} (body : S -> A -> option S)
    (l : list A) (s : S) : option S :=
  match l with
  | [] => Some s
  | x :: l' =>
      match body s x with
      | Some s' => for_each body l' s'
      | None => None
      end
  end.

Definition add_edges_of (this : t) (node : DependencyNode.t) : option t :=
  for_each (add_edge (DependencyNode.name node))
           (JsMap.keys (DependencyNode.dependencies node)) this.

(** Second pass: build edges.  The loop runs over [this.nodes.values()];
    its body changes only [dependents] and [edges], which it does not read
    back through the loop variable, and adds no key to [nodes], so the nodes
    at entry give the names and dependencies that the loop sees. *)
Definition second_pass (this : t) : option t :=
  for_each add_edges_of (JsMap.values (nodes this)) this.

Definition init_from_repos (repos : list LocalRepo.t) (this : t)
  : option t :=
  second_pass (first_pass this repos).

(** *** Methods that read the graph

    A method is run on the graph it is called on and gives back its result
    and the graph after the call. *)

Definition Method (A : Type) := t -> A * t.

Definition ret {A : Type} (a : A) : Method A := fun this => (a, this).

Definition bind {A B : Type} (m : Method A) (k : A -> Method B)
  : Method B :=
  fun this => let (a, this') := m this in k a this'.

(** Reading a field of [this]. *)
Definition read {A : Type} (field : t -> A) : Method A :=
  fun this => (field this, this).

Definition result_of {A : Type} (m : Method A) (this : t) : A :=
  fst (m this).

Definition state_after {A : Type} (m : Method A) (this : t) : t :=
  snd (m this).

Notation "x <- m ;; k" := (bind m (fun x => k))
  (at level 61, m at next level, right associativity).

Definition get_node (name : string) : Method (option DependencyNode.t) :=
  this_nodes <- read nodes ;;
  ret (JsMap.get this_nodes name).

Definition get_dependents (name : string) : Method JsSet.t :=
  this_edges <- read edges ;;
  ret (match JsMap.get this_edges name with
       | Some tos => tos
       | None => JsSet.empty
       end).

Definition get_dependencies (name : string)
  : Method (JsMap.t DependencySpec.t) :=
  this_nodes <- read nodes ;;
  ret (match JsMap.get this_nodes name with
       | Some node => DependencyNode.dependencies node
       | None => JsMap.empty
       end).

(** *** Topological sort *)

(** The filter on [node.dependencies.entries()]. *)
Definition retained (this_nodes : JsMap.t DependencyNode.t)
    (exclude_dev : bool) (e : string * DependencySpec.t) : bool :=
  if exclude_dev && DependencyType_eqb (DependencySpec.type (snd e)) DEV
  then false
  else JsMap.has this_nodes (fst e).

Definition sort_items (this_nodes : JsMap.t DependencyNode.t)
    (exclude_dev : bool) : list Sort.Sortable :=
  map (fun node =>
         Sort.mk (DependencyNode.name node)
           (map fst
              (filter (retained this_nodes exclude_dev)
                 (JsMap.entries (DependencyNode.dependencies node)))))
      (JsMap.values this_nodes).

(** [new Error(result.error)] *)
Record Error := mk_Error { message : Sort.CycleError }.

Definition topological_sort (exclude_dev : bool)
  : Method (Completion Error (list string)) :=
  this_nodes <- read nodes ;;
  let items := sort_items this_nodes exclude_dev in
  let result := Sort.topological_sort items "package" in
  ret (match result with
       | Sort.Failed error => Throw (mk_Error error)
       | Sort.Ok sorted => Return (map Sort.id sorted)
       end).

(** *** Cycle detection *)

(** The three collections that the closure [dfs] updates. *)
Record DfsState := mk_dfs {
  cycles : list (list string);
  visited : JsSet.t;
  rec_stack : JsSet.t
}.

(** [path.indexOf(x)]; [None] stands for -1. *)
Fixpoint indexOf (path : list string) (x : string) : option nat :=
  match path with
  | [] => None
  | y :: path' =>
      if String.eqb y x then Some 0 else option_map S (indexOf path' x)
  end.

(** [path.slice(start)]: a start of -1 counts from the end and keeps the
    last element. *)
Definition slice (path : list string) (start : option nat) : list string :=
  match start with
  | Some i => skipn i path
  | None => skipn (List.length path - 1) path
  end.

(** [[...c].sort()]: the default order compares the strings unit by unit. *)
Fixpoint insert_sorted (x : string) (l : list string) : list string :=
  match l with
  | [] => [x]
  | y :: l' => if String.leb x y then x :: l else y :: insert_sorted x l'
  end.

Definition sort (l : list string) : list string :=
  fold_right insert_sorted [] l.

(** [[...c].sort().join(',')] *)
Definition cycle_key (c : list string) : string :=
  String.concat "," (sort c).

(** The branch taken on a dependency that is on the recursion stack. *)
Definition record_cycle (path : list string) (dep_name : string)
    (st : DfsState) : DfsState :=
  let cycle_start := indexOf path dep_name in
  let cycle := slice path cycle_start ++ [dep_name] in
  let key := cycle_key cycle in
  let exists_ :=
    existsb (fun c => String.eqb (cycle_key c) key) (cycles st) in
  if negb exists_
  then {| cycles := cycles st ++ [cycle];
          visited := visited st;
          rec_stack := rec_stack st |}
  else st.

(** Body of the loop over [node.dependencies]; [dfs] is the recursive
    call. *)
Definition visit_dep
    (dfs : string -> list string -> DfsState -> option DfsState)
    (this_nodes : JsMap.t DependencyNode.t)
    (include : DependencySpec.t -> bool)
    (path : list string) (st : DfsState) (e : string * DependencySpec.t)
  : option DfsState :=
  if negb (include (snd e)) then Some st
  else if JsMap.has this_nodes (fst e) then
    if negb (JsSet.has (visited st) (fst e)) then dfs (fst e) path st
    else if JsSet.has (rec_stack st) (fst e)
         then Some (record_cycle path (fst e) st)
         else Some st
  else Some st.

(** [dfs(name, path)].  The recursion of the source is bounded here by
    [depth] nested calls; [None] says that the bound was reached. *)
Fixpoint dfs (depth : nat) (this_nodes : JsMap.t DependencyNode.t)
    (include : DependencySpec.t -> bool)
    (name : string) (path : list string) (st : DfsState)
  : option DfsState :=
  match depth with
  | 0 => None
  | S depth' =>
      let st1 := {| cycles := cycles st;
                    visited := JsSet.add (visited st) name;
                    rec_stack := JsSet.add (rec_stack st) name |} in
      let path1 := path ++ [name] in
      let after_loop :=
        match JsMap.get this_nodes name with
        | Some node =>
            for_each
              (visit_dep (dfs depth' this_nodes include)
                         this_nodes include path1)
              (JsMap.entries (DependencyNode.dependencies node)) st1
        | None => Some st1
        end in
      match after_loop with
      | Some st2 =>
          Some {| cycles := cycles st2;
                  visited := visited st2;
                  rec_stack := JsSet.delete (rec_stack st2) name |}
      | None => None
      end
  end.

(** The loop over [this.nodes.keys()]. *)
Definition visit_root (depth : nat) (this_nodes : JsMap.t DependencyNode.t)
    (include : DependencySpec.t -> bool) (st : DfsState) (name : string)
  : option DfsState :=
  if negb (JsSet.has (visited st) name)
  then dfs depth this_nodes include name [] st
  else Some st.

(** The search of [#find_cycles] on the nodes it reads.  No chain of nested
    [dfs] calls is longer than the number of nodes. *)
Definition find_cycles_in (this_nodes : JsMap.t DependencyNode.t)
    (include : DependencySpec.t -> bool) : option (list (list string)) :=
  option_map cycles
    (for_each (visit_root (List.length this_nodes) this_nodes include)
              (JsMap.keys this_nodes)
              {| cycles := []; visited := JsSet.empty;
                 rec_stack := JsSet.empty |}).

Definition find_cycles (include : DependencySpec.t -> bool)
  : Method (option (list (list string))) :=
  this_nodes <- read nodes ;;
  ret (find_cycles_in this_nodes include).

Record CyclesByType := mk_cycles {
  production_cycles : list (list string);
  dev_cycles : list (list string)
}.

Definition detect_cycles_by_type : Method (option CyclesByType) :=
  production <-
    find_cycles
      (fun spec => negb (DependencyType_eqb (DependencySpec.type spec) DEV)) ;;
  dev <-
    find_cycles
      (fun spec => DependencyType_eqb (DependencySpec.type spec) DEV) ;;
  ret (match production, dev with
       | Some p, Some d => Some (mk_cycles p d)
       | _, _ => None
       end).

(** *** Snapshot *)

Definition toJSON : Method DependencyGraphJson.t :=
  this_nodes <- read nodes ;;
  let json_nodes :=
    map (fun node =>
           DependencyGraphJson.mk_node
             (DependencyNode.name node)
             (DependencyNode.version node)
             (JsMap.entries (DependencyNode.dependencies node))
             (DependencyNode.dependents node)
             (DependencyNode.publishable node))
        (JsMap.values this_nodes) in
  this_edges <- read edges ;;
  let json_edges :=
    flat_map (fun e => map (DependencyGraphJson.mk_edge (fst e)) (snd e))
             (JsMap.entries this_edges) in
  ret (DependencyGraphJson.mk json_nodes json_edges).

End DependencyGraph.

(** ** [DependencyGraphBuilder] *)

Module DependencyGraphBuilder.
Import DependencyGraph.

Definition build_from_repos (repos : list LocalRepo.t)
  : option DependencyGraph.t :=
  init_from_repos repos DependencyGraph.new.

Definition compute_publishing_order
  : Method (Completion Error (list string)) :=
  topological_sort true.

Record WildcardDep := mk_wildcard {
  pkg : string; dep : string; version : string
}.

Record MissingPeer := mk_missing { peer_pkg : string; peer_dep : string }.

Record Analysis := mk_analysis {
  production_cycles : list (list string);
  dev_cycles : list (list string);
  wildcard_deps : list WildcardDep;
  missing_peers : list MissingPeer
}.

(** Body of the inner loop of [analyze] on the two output arrays. *)
Definition scan_dep (graph_nodes : JsMap.t DependencyNode.t)
    (node : DependencyNode.t)
    (acc : list WildcardDep * list MissingPeer)
    (e : string * DependencySpec.t)
  : list WildcardDep * list MissingPeer :=
  let (dep_name, spec) := e in
  let acc1 :=
    if String.eqb (DependencySpec.version spec) "*"
    then (fst acc ++ [mk_wildcard (DependencyNode.name node) dep_name
                                  (DependencySpec.version spec)],
          snd acc)
    else acc in
  if DependencyType_eqb (DependencySpec.type spec) PEER
     && negb (JsMap.has graph_nodes dep_name)
  then (fst acc1,
        snd acc1 ++ [mk_missing (DependencyNode.name node) dep_name])
  else acc1.

Definition scan_node (graph_nodes : JsMap.t DependencyNode.t)
    (acc : list WildcardDep * list MissingPeer) (node : DependencyNode.t)
  : list WildcardDep * list MissingPeer :=
  fold_left (scan_dep graph_nodes node)
            (JsMap.entries (DependencyNode.dependencies node)) acc.

Definition analyze : Method (option Analysis) :=
  found <- detect_cycles_by_type ;;
  graph_nodes <- read nodes ;;
  let scanned :=
    fold_left (scan_node graph_nodes) (JsMap.values graph_nodes) ([], []) in
  ret (match found with
       | Some c =>
           Some (mk_analysis (DependencyGraph.production_cycles c)
                             (DependencyGraph.dev_cycles c)
                             (fst scanned) (snd scanned))
       | None => None
       end).

End DependencyGraphBuilder.

(** ** The task [gitops_run]: what [run] does with the results

    [run] gets the repos from [get_repo_paths] and the settled results from
    [map_concurrent_settled]; both calls are given here by what they return.
    Durations are JavaScript numbers read from [performance.now()] and stay
    abstract.  The lines that [run] logs are not modelled, the entries and
    counts that it prints are. *)

Module GitopsRun.

Set Implicit Arguments.

Section Run.

Variable Duration : Type.
Variable zero_ms : Duration.  (* [duration_ms: 0] *)

Record RepoPath := mk_repo { name : string; path : string }.

Inductive Status := success | failure.

Record RunResult := mk_result {
  repo_name : string;
  repo_dir : string;
  status : Status;
  exit_code : Z;
  stdout : string;
  stderr : string;
  duration_ms : Duration;
  error : option string
}.

(** What [await spawn_out(...)] resolves to, as far as [run] reads it. *)
Record Spawned := mk_spawned {
  ok : bool;                (* [spawned.result.ok] *)
  code : option Z;          (* [spawned.result.code], [None] for [null] *)
  out : option string;      (* [spawned.stdout] *)
  err : option string       (* [spawned.stderr] *)
}.

(** The [await] either resolves or throws; [threw] carries
    [String(error)]. *)
Inductive Attempt :=
| resolved (spawned : Spawned)
| threw (text : string).

(** [s || ''] *)
Definition or_empty (s : option string) : string :=
  match s with Some s => s | None => "" end.

(** The function mapped over the repos: the [try] and the [catch]. *)
Definition run_in_repo (repo : RepoPath) (attempt : Attempt)
    (elapsed : Duration) : RunResult :=
  match attempt with
  | resolved spawned =>
      {| repo_name := name repo;
         repo_dir := path repo;
         status := if ok spawned then success else failure;
         exit_code := match code spawned with Some c => c | None => 0%Z end;
         stdout := or_empty (out spawned);
         stderr := or_empty (err spawned);
         duration_ms := elapsed;
         error := None |}
  | threw text =>
      {| repo_name := name repo;
         repo_dir := path repo;
         status := failure;
         exit_code := (-1)%Z;
         stdout := "";
         stderr := "";
         duration_ms := elapsed;
         error := Some text |}
  end.

(** An entry of the array that [map_concurrent_settled] resolves to;
    [rejected] carries [String(result.reason)]. *)
Inductive Settled :=
| fulfilled (value : RunResult)
| rejected (reason : string).

(** Body of the loop over [results] on [successes] and [failures]. *)
Definition collect_step (acc : list RunResult * list RunResult)
    (result : Settled) : list RunResult * list RunResult :=
  match result with
  | fulfilled run_result =>
      match status run_result with
      | success => (fst acc ++ [run_result], snd acc)
      | failure => (fst acc, snd acc ++ [run_result])
      end
  | rejected reason =>
      (fst acc,
       snd acc ++
       [{| repo_name := "unknown";
           repo_dir := "unknown";
           status := failure;
           exit_code := (-1)%Z;
           stdout := "";
           stderr := "";
           duration_ms := zero_ms;
           error := Some reason |}])
  end.

Definition collect (results : list Settled)
  : list RunResult * list RunResult :=
  fold_left collect_step results ([], []).

(** The entries and the counts of the output, in either format. *)
Record Report := mk_report {
  repos : list RunResult;   (* [[...successes, ...failures]] *)
  total : nat;              (* [repos.length] *)
  succeeded : nat;          (* [successes.length] *)
  failed : nat              (* [failures.length] *)
}.

Record TaskError := mk_TaskError { message : string }.

(** What a call of [run] leaves: the report, when it got as far as printing
    one, and the error that it throws, if any. *)
Record Outcome := mk_outcome {
  report : option Report;
  thrown : option TaskError
}.

(** [`${n}`] for a length. *)
Definition decimal (n : nat) : string :=
  NilEmpty.string_of_uint (Nat.to_uint n).

Definition run (repo_paths : list RepoPath) (results : list Settled)
  : Outcome :=
  if Nat.eqb (List.length repo_paths) 0
  then {| report := None;
          thrown := Some (mk_TaskError "No repos found in config") |}
  else
    let successes := fst (collect results) in
    let failures := snd (collect results) in
    {| report :=
         Some {| repos := successes ++ failures;
                 total := List.length repo_paths;
                 succeeded := List.length successes;
                 failed := List.length failures |};
       thrown :=
         if Nat.ltb 0 (List.length failures)
         then Some (mk_TaskError
                      (decimal (List.length failures) ++ " repos failed"))
         else None |}.

End Run.

Unset Implicit Arguments.

End GitopsRun.

(** ** Notions used to state the properties *)

Module Notions.
Import DependencyGraph.

(** [dependent] depends on [dependency] through an edge that the sort keeps:
    the target is a graph node and, when [exclude_dev] is set, the spec is
    not of type [dev]. *)
Definition depends (g : DependencyGraph.t) (exclude_dev : bool)
    (dependency dependent : string) : Prop :=
  exists node spec,
    JsMap.get (nodes g) dependent = Some node /\
    JsMap.get (DependencyNode.dependencies node) dependency = Some spec /\
    (exclude_dev = true -> DependencySpec.type spec <> DEV) /\
    JsMap.has (nodes g) dependency = true.

(** No node reaches itself along kept edges. *)
Definition acyclic (g : DependencyGraph.t) (exclude_dev : bool) : Prop :=
  forall x, ~ clos_trans string (depends g exclude_dev) x x.

(** [x] occurs in [l] at an earlier position than [y]. *)
Definition before (l : list string) (x y : string) : Prop :=
  exists l1 l2 l3, l = l1 ++ x :: l2 ++ y :: l3.

(** Two cycles visit the same nodes. *)
Definition same_node_set (c1 c2 : list string) : Prop :=
  forall x, In x c1 <-> In x c2.

(** The entries of a manifest section have pairwise different keys, as the
    entries of an object do. *)
Definition unique_keys (o : option (list (string * string))) : Prop :=
  NoDup (map fst (entries_or_empty o)).

(** The value listed for [k] in a manifest section. *)
Definition listed (o : option (list (string * string))) (k : string)
  : option string :=
  JsMap.get (entries_or_empty o) k.

(** The representation invariant of a graph made by [init_from_repos]: keys
    are unique, a node is stored under its name, and [edges] has the keys of
    [nodes]. *)
Record well_formed (g : DependencyGraph.t) : Prop := mk_wf {
  wf_keys : NoDup (JsMap.keys (nodes g));
  wf_names : forall k node,
      In (k, node) (nodes g) -> DependencyNode.name node = k;
  wf_deps : forall k node,
      In (k, node) (nodes g) ->
      NoDup (JsMap.keys (DependencyNode.dependencies node));
  wf_edges : JsMap.keys (edges g) = JsMap.keys (nodes g)
}.
Arguments wf_keys {g} _.
Arguments wf_names {g} _ k node _.
Arguments wf_deps {g} _ k node _.
Arguments wf_edges {g} _.

(** Every field of a node but [dependents], which the second pass fills. *)
Definition declared (node : DependencyNode.t) :=
  (DependencyNode.name node, DependencyNode.version node,
   DependencyNode.repo node, DependencyNode.dependencies node,
   DependencyNode.publishable node).

(** The set stored in [edges] under [k], empty when there is none. *)
Definition edges_of (g : DependencyGraph.t) (k : string) : JsSet.t :=
  match JsMap.get (edges g) k with Some tos => tos | None => [] end.

(** The [dependents] of the node stored under [k]. *)
Definition dependents_of (g : DependencyGraph.t) (k : string) : JsSet.t :=
  match JsMap.get (nodes g) k with
  | Some node => DependencyNode.dependents node
  | None => []
  end.

(** The (dependent, dependency) pairs in the order in which the second pass
    meets them. *)
Definition dependency_pairs (ns : list DependencyNode.t)
  : list (string * string) :=
  flat_map (fun node =>
              map (pair (DependencyNode.name node))
                  (JsMap.keys (DependencyNode.dependencies node))) ns.

(** What relates the graph before and after part of the second pass that
    met the pairs [ps]. *)
Record pass_step (ps : list (string * string)) (g g' : DependencyGraph.t)
  : Prop := mk_pass {
  ps_nodes : JsMap.keys (nodes g') = JsMap.keys (nodes g);
  ps_edges : JsMap.keys (edges g') = JsMap.keys (edges g);
  ps_declared : forall k,
      option_map declared (JsMap.get (nodes g') k) =
      option_map declared (JsMap.get (nodes g) k);
  ps_added : forall k x,
      In x (edges_of g' k) <->
      In x (edges_of g k) \/ (In (x, k) ps /\ JsMap.has (nodes g) k = true);
  ps_dependents :
      (forall k, dependents_of g k = edges_of g k) ->
      forall k, dependents_of g' k = edges_of g' k
}.
Arguments ps_nodes {ps g g'} _.
Arguments ps_edges {ps g g'} _.
Arguments ps_declared {ps g g'} _ k.
Arguments ps_added {ps g g'} _ k x.
Arguments ps_dependents {ps g g'} _ _ k.

(** Among the sort items, the item [x] lists the item [d] in [depends_on]. *)
Definition needs (items : list Sort.Sortable) (d x : string) : Prop :=
  exists item,
    In item items /\ Sort.id item = x /\
    In d (Sort.depends_on item) /\ In d (Sort.ids items).

(** [y] lies on a cycle of [R] or is reached from one. *)
Definition below_cycle (R : relation string) (y : string) : Prop :=
  exists c, clos_trans string R c c /\ clos_refl_trans string R c y.

(** What holds between the rounds of the sort: the two lists partition the
    items, the sorted part lists every item after its dependencies, and the
    items on or below a cycle are all pending. *)
Record sort_invariant (items pending sorted : list Sort.Sortable)
  : Prop := mk_si {
  si_perm : Permutation (sorted ++ pending) items;
  si_order : forall l1 item l2,
      sorted = l1 ++ item :: l2 ->
      forall d, In d (Sort.depends_on item) -> In d (Sort.ids items) ->
                In d (Sort.ids l1);
  si_cycles : forall y,
      below_cycle (needs items) y -> In y (Sort.ids pending)
}.
Arguments si_perm {items pending sorted} _.
Arguments si_order {items pending sorted} _ l1 item l2 _ d _ _.
Arguments si_cycles {items pending sorted} _ y _.

(** Every cycle of the graph is made of [dev] edges only: an edge that the
    publishing order keeps never lies on a cycle. *)
Definition cycles_are_dev_only (g : DependencyGraph.t) : Prop :=
  forall x y,
    depends g true x y -> ~ clos_refl_trans string (depends g false) y x.

(** [s] is [l] with some elements left out. *)
Inductive subseq : list string -> list string -> Prop :=
| subseq_nil : subseq [] []
| subseq_skip x s l : subseq s l -> subseq s (x :: l)
| subseq_take x s l : subseq s l -> subseq (x :: s) (x :: l).

(** What the search keeps true of its state: [visited] has no repetition,
    the recorded cycles have pairwise different keys, and a recorded cycle is
    a run of nodes in the order of their first visit, closed by its first
    node. *)
Record dfs_invariant (st : DfsState) : Prop := mk_di {
  di_visited : NoDup (visited st);
  di_keys : NoDup (map cycle_key (cycles st));
  di_cycles : forall c,
      In c (cycles st) ->
      exists s, s <> [] /\ c = s ++ [hd "" s] /\ subseq s (visited st)
}.
Arguments di_visited {st} _.
Arguments di_keys {st} _.
Arguments di_cycles {st} _ c _.

(** The number of node names that the search has not visited. *)
Definition unvisited (this_nodes : JsMap.t DependencyNode.t) (seen : JsSet.t)
  : nat :=
  List.length (filter (fun k => negb (JsSet.has seen k)) (JsMap.keys this_nodes)).

(** A method that leaves the graph as it found it. *)
Definition read_only {A : Type} (m : Method A) : Prop :=
  forall this, state_after m this = this.

(** The two filters that [detect_cycles_by_type] passes to [#find_cycles]. *)
Definition not_dev (spec : DependencySpec.t) : bool :=
  negb (DependencyType_eqb (DependencySpec.type spec) DEV).

Definition is_dev (spec : DependencySpec.t) : bool :=
  DependencyType_eqb (DependencySpec.type spec) DEV.

(** The search steps from [x] to [y]: the node stored under [x] lists [y]
    with a spec that [include] accepts, and [y] is a node. *)
Definition follows (this_nodes : JsMap.t DependencyNode.t)
    (include : DependencySpec.t -> bool) (x y : string) : Prop :=
  exists node spec,
    JsMap.get this_nodes x = Some node /\
    In (y, spec) (JsMap.entries (DependencyNode.dependencies node)) /\
    include spec = true /\
    JsMap.has this_nodes y = true.

(** Each element of [l] is related to the next one. *)
Fixpoint chain (R : relation string) (l : list string) : Prop :=
  match l with
  | x :: rest =>
      match rest with
      | y :: _ => R x y /\ chain R rest
      | [] => True
      end
  | [] => True
  end.

(** [c] walks along [R] and ends where it starts. *)
Definition closed_walk (R : relation string) (c : list string) : Prop :=
  chain R c /\ 2 <= List.length c /\ hd "" c = last c "".

(** [dependent] depends on [dependency] through a [dev] edge between
    nodes. *)
Definition dev_depends (g : DependencyGraph.t)
    (dependency dependent : string) : Prop :=
  exists node spec,
    JsMap.get (nodes g) dependent = Some node /\
    JsMap.get (DependencyNode.dependencies node) dependency = Some spec /\
    DependencySpec.type spec = DEV /\
    JsMap.has (nodes g) dependency = true.

(** The search is done with [x]: it was visited and has left the recursion
    stack. *)
Definition finished (st : DfsState) (x : string) : Prop :=
  In x (visited st) /\ ~ In x (rec_stack st).

(** The finished nodes are closed under the steps of the search and none of
    them lies on a cycle. *)
Record search_closed (R : relation string) (st : DfsState) : Prop := mk_sc {
  sc_closed : forall x y, finished st x -> R x y -> finished st y;
  sc_acyclic : forall x, finished st x -> ~ clos_trans string R x x
}.
Arguments sc_closed {R st} _ x y _ _.
Arguments sc_acyclic {R st} _ x _ _.

(** The findings of [analyze] for one dependency entry of [node]. *)
Definition wildcard_of (node : DependencyNode.t)
    (e : string * DependencySpec.t)
  : list DependencyGraphBuilder.WildcardDep :=
  if String.eqb (DependencySpec.version (snd e)) "*"
  then [DependencyGraphBuilder.mk_wildcard (DependencyNode.name node) (fst e)
          (DependencySpec.version (snd e))]
  else [].

Definition missing_peer_of (graph_nodes : JsMap.t DependencyNode.t)
    (node : DependencyNode.t) (e : string * DependencySpec.t)
  : list DependencyGraphBuilder.MissingPeer :=
  if DependencyType_eqb (DependencySpec.type (snd e)) PEER
     && negb (JsMap.has graph_nodes (fst e))
  then [DependencyGraphBuilder.mk_missing (DependencyNode.name node) (fst e)]
  else [].

End Notions.

(** ** The scenarios of the specification, used as test inputs *)

Module Scenario.

Definition package (name : string) (version : option string)
    (deps dev_deps peer_deps : option (list (string * string)))
  : LocalRepo.t :=
  LocalRepo.mk
    (Library.mk name (PackageJson.mk version None deps dev_deps peer_deps)).

(** A: [a] depends on [b] in production. *)
Definition A : list LocalRepo.t :=
  [package "a" (Some "1.0.0") (Some [("b", "^1.0.0")]) None None;
   package "b" None None None None].

(** B: [a] and [b] depend on each other for development. *)
Definition B : list LocalRepo.t :=
  [package "a" (Some "1.0.0") None (Some [("b", "^1.0.0")]) None;
   package "b" (Some "1.0.0") None (Some [("a", "^1.0.0")]) None].

(** C: [a] and [b] depend on each other in production. *)
Definition C : list LocalRepo.t :=
  [package "a" (Some "1.0.0") (Some [("b", "^1.0.0")]) None None;
   package "b" (Some "1.0.0") (Some [("a", "^1.0.0")]) None None].

(** D: [a] has a peer dependency on [ext], which is not a repo. *)
Definition D : list LocalRepo.t :=
  [package "a" (Some "") None None (Some [("ext", "*")])].

(** [x] lists [y] in all three sections with different ranges. *)
Definition all_sections : list LocalRepo.t :=
  [package "x" (Some "2.0.0")
     (Some [("y", "^1.0.0")]) (Some [("y", "^3.0.0")]) (Some [("y", "^2.0.0")]);
   package "y" (Some "1.0.0") None None None].

(** [x] lists [y] as a production and as a peer dependency. *)
Definition prod_and_peer : list LocalRepo.t :=
  [package "x" (Some "2.0.0")
     (Some [("y", "^1.0.0")]) None (Some [("y", "^2.0.0")]);
   package "y" (Some "1.0.0") None None None].

(** [a] depends on [b] in production and [b] on [a] for development. *)
Definition mixed : list LocalRepo.t :=
  [package "a" (Some "1.0.0") (Some [("b", "^1.0.0")]) None None;
   package "b" (Some "1.0.0") None (Some [("a", "^1.0.0")]) None].

(** Two repos with the name [a]; the second one is private and depends on
    [b]. *)
Definition same_name : list LocalRepo.t :=
  [package "a" (Some "1.0.0") None None None;
   package "b" (Some "1.0.0") None None None;
   LocalRepo.mk
     (Library.mk "a"
        (PackageJson.mk (Some "2.0.0") (Some true)
           (Some [("b", "*")]) None None))].

(** The graph built from a scenario. *)
Definition graph (repos : list LocalRepo.t) : DependencyGraph.t :=
  match DependencyGraphBuilder.build_from_repos repos with
  | Some g => g
  | None => DependencyGraph.new
  end.

Definition graph_A : DependencyGraph.t := Eval vm_compute in graph A.
Definition graph_B : DependencyGraph.t := Eval vm_compute in graph B.
Definition graph_C : DependencyGraph.t := Eval vm_compute in graph C.
Definition graph_D : DependencyGraph.t := Eval vm_compute in graph D.
Definition graph_prod_and_peer : DependencyGraph.t :=
  Eval vm_compute in graph prod_and_peer.
Definition graph_mixed : DependencyGraph.t := Eval vm_compute in graph mixed.
Definition graph_same_name : DependencyGraph.t :=
  Eval vm_compute in graph same_name.

End Scenario.

(** * Proofs *)

(** ** Insertion-ordered maps and sets *)

Section JsMapFacts.
Variable V : Type.
Implicit Types (m : JsMap.t V) (k : string) (v : V).

Lemma get_set_same m k v : JsMap.get (JsMap.set m k v) k = Some v.
Proof.
  induction m as [|[k' v'] m IH]; simpl.
  - now rewrite String.eqb_refl.
  - destruct (String.eqb k' k) eqn:E; simpl; rewrite E; auto.
Qed.

Lemma get_set_other m k k' v :
  k <> k' -> JsMap.get (JsMap.set m k v) k' = JsMap.get m k'.
Proof.
  intros Hne. induction m as [|[k0 v0] m IH]; simpl.
  - apply String.eqb_neq in Hne. now rewrite Hne.
  - destruct (String.eqb k0 k) eqn:E; simpl.
    + apply String.eqb_eq in E. subst k0.
      apply String.eqb_neq in Hne. now rewrite Hne.
    + now rewrite IH.
Qed.

Lemma has_In_keys m k : JsMap.has m k = true <-> In k (JsMap.keys m).
Proof.
  unfold JsMap.has. induction m as [|[k' v'] m IH]; simpl.
  - split; [discriminate | tauto].
  - destruct (String.eqb k' k) eqn:E.
    + apply String.eqb_eq in E. tauto.
    + apply String.eqb_neq in E. rewrite IH. tauto.
Qed.

Lemma has_false_not_In m k :
  JsMap.has m k = false <-> ~ In k (JsMap.keys m).
Proof.
  rewrite <- has_In_keys. destruct (JsMap.has m k); split; congruence.
Qed.

Lemma get_None_has m k : JsMap.get m k = None <-> JsMap.has m k = false.
Proof.
  unfold JsMap.has. destruct (JsMap.get m k); split; congruence.
Qed.

Lemma get_Some_has m k v : JsMap.get m k = Some v -> JsMap.has m k = true.
Proof. unfold JsMap.has. now intros ->. Qed.

Lemma keys_set_present m k v :
  JsMap.has m k = true -> JsMap.keys (JsMap.set m k v) = JsMap.keys m.
Proof.
  unfold JsMap.has. induction m as [|[k' v'] m IH]; simpl.
  - discriminate.
  - destruct (String.eqb k' k) eqn:E; simpl; intros H.
    + reflexivity.
    + f_equal. now apply IH.
Qed.

Lemma keys_set_absent m k v :
  JsMap.has m k = false -> JsMap.keys (JsMap.set m k v) = JsMap.keys m ++ [k].
Proof.
  unfold JsMap.has. induction m as [|[k' v'] m IH]; simpl.
  - reflexivity.
  - destruct (String.eqb k' k) eqn:E; simpl; intros H.
    + discriminate.
    + f_equal. now apply IH.
Qed.

Lemma NoDup_keys_set m k v :
  NoDup (JsMap.keys m) -> NoDup (JsMap.keys (JsMap.set m k v)).
Proof.
  intros H. destruct (JsMap.has m k) eqn:E.
  - now rewrite keys_set_present.
  - rewrite keys_set_absent by assumption.
    apply NoDup_app; [assumption | repeat constructor; simpl; tauto |].
    intros x Hx [<-|[]]. now apply has_false_not_In in E.
Qed.

Lemma In_get m k v :
  NoDup (JsMap.keys m) -> In (k, v) m -> JsMap.get m k = Some v.
Proof.
  induction m as [|[k' v'] m IH]; simpl; [tauto|].
  intros Hnd [Heq|Hin].
  - inversion Heq; subst. now rewrite String.eqb_refl.
  - inversion Hnd as [|? ? Hnot Hnd']; subst.
    destruct (String.eqb k' k) eqn:E.
    + apply String.eqb_eq in E. subst k'.
      exfalso. apply Hnot. change k with (fst (k, v)). now apply in_map.
    + now apply IH.
Qed.

Lemma get_In m k v : JsMap.get m k = Some v -> In (k, v) m.
Proof.
  induction m as [|[k' v'] m IH]; simpl; [discriminate|].
  destruct (String.eqb k' k) eqn:E.
  - apply String.eqb_eq in E. intros [= ->]. subst. now left.
  - intros H. right. now apply IH.
Qed.

Lemma In_set m k v k' v' :
  In (k', v') (JsMap.set m k v) -> (k' = k /\ v' = v) \/ In (k', v') m.
Proof.
  induction m as [|[k0 v0] m IH]; simpl.
  - intros [[= <- <-]|[]]. now left.
  - destruct (String.eqb k0 k) eqn:E; simpl.
    + apply String.eqb_eq in E. subst k0.
      intros [[= <- <-]|H]; [now left | now right; right].
    + intros [H|H]; [now right; left |].
      destruct (IH H) as [?|?]; [now left | now right; right].
Qed.

End JsMapFacts.

Lemma JsSet_has_In s x : JsSet.has s x = true <-> In x s.
Proof.
  unfold JsSet.has. rewrite existsb_exists. split.
  - intros (y & Hy & E). apply String.eqb_eq in E. now subst.
  - intros H. exists x. split; [assumption | apply String.eqb_refl].
Qed.

Lemma JsSet_has_false s x : JsSet.has s x = false <-> ~ In x s.
Proof.
  rewrite <- JsSet_has_In. destruct (JsSet.has s x); split; congruence.
Qed.

Lemma JsSet_In_add s x y : In y (JsSet.add s x) <-> In y s \/ y = x.
Proof.
  unfold JsSet.add. destruct (JsSet.has s x) eqn:E.
  - apply JsSet_has_In in E. split; [tauto | intros [? | ->]; assumption].
  - rewrite in_app_iff. simpl. intuition congruence.
Qed.

Lemma JsSet_In_delete s x y : In y (JsSet.delete s x) <-> In y s /\ y <> x.
Proof.
  unfold JsSet.delete. rewrite filter_In, negb_true_iff, String.eqb_neq.
  intuition congruence.
Qed.

(** ** Construction: merging the manifest sections *)

Section Merge.
Import DependencyGraph.

Lemma get_not_listed (V : Type) (m : JsMap.t V) k :
  ~ In k (map fst m) -> JsMap.get m k = None.
Proof.
  intros H. apply get_None_has. now apply has_false_not_In.
Qed.

Lemma add_deps_keys ty es : forall m,
  NoDup (JsMap.keys m) -> NoDup (JsMap.keys (add_deps ty m es)).
Proof.
  unfold add_deps. induction es as [|e es IH]; simpl; intros m H.
  - assumption.
  - apply IH. now apply NoDup_keys_set.
Qed.

Lemma add_dev_deps_keys es : forall m,
  NoDup (JsMap.keys m) -> NoDup (JsMap.keys (add_dev_deps m es)).
Proof.
  unfold add_dev_deps. induction es as [|e es IH]; simpl; intros m H.
  - assumption.
  - apply IH. destruct (JsMap.has m (fst e)); simpl;
      [assumption | now apply NoDup_keys_set].
Qed.

Lemma get_add_deps ty es : forall m y,
  NoDup (map fst es) ->
  JsMap.get (add_deps ty m es) y =
  match JsMap.get es y with
  | Some r => Some (DependencySpec.mk ty r None)
  | None => JsMap.get m y
  end.
Proof.
  unfold add_deps. induction es as [|[k r] es IH]; simpl; intros m y Hnd.
  - reflexivity.
  - inversion Hnd as [|? ? Hnot Hnd']; subst.
    rewrite IH by assumption.
    destruct (String.eqb k y) eqn:E.
    + apply String.eqb_eq in E. subst y.
      rewrite (get_not_listed _ es k Hnot). apply get_set_same.
    + apply String.eqb_neq in E.
      destruct (JsMap.get es y); [reflexivity|].
      now apply get_set_other.
Qed.

Lemma get_add_dev_deps es : forall m y,
  JsMap.get (add_dev_deps m es) y =
  match JsMap.get m y with
  | Some s => Some s
  | None =>
      match JsMap.get es y with
      | Some r => Some (DependencySpec.mk DEV r None)
      | None => None
      end
  end.
Proof.
  unfold add_dev_deps. induction es as [|[k r] es IH]; simpl; intros m y.
  - now destruct (JsMap.get m y).
  - rewrite IH. unfold JsMap.has.
    destruct (JsMap.get m k) eqn:Hk; simpl.
    + destruct (JsMap.get m y) eqn:Hy; [reflexivity|].
      destruct (String.eqb k y) eqn:E; [|reflexivity].
      apply String.eqb_eq in E. congruence.
    + destruct (String.eqb k y) eqn:E.
      * apply String.eqb_eq in E. subst y.
        now rewrite get_set_same, Hk.
      * apply String.eqb_neq in E. now rewrite get_set_other.
Qed.

Lemma merge_dependencies_keys pj :
  NoDup (JsMap.keys (merge_dependencies pj)).
Proof.
  unfold merge_dependencies.
  apply add_dev_deps_keys, add_deps_keys, add_deps_keys. constructor.
Qed.

(** Which section decides the spec that the merge records for [y]. *)
Lemma get_merge_dependencies pj y :
  Notions.unique_keys (PackageJson.dependencies pj) ->
  Notions.unique_keys (PackageJson.peerDependencies pj) ->
  JsMap.get (merge_dependencies pj) y =
  match Notions.listed (PackageJson.peerDependencies pj) y with
  | Some r => Some (DependencySpec.mk PEER r None)
  | None =>
      match Notions.listed (PackageJson.dependencies pj) y with
      | Some r => Some (DependencySpec.mk PROD r None)
      | None =>
          match Notions.listed (PackageJson.devDependencies pj) y with
          | Some r => Some (DependencySpec.mk DEV r None)
          | None => None
          end
      end
  end.
Proof.
  unfold Notions.unique_keys, Notions.listed, merge_dependencies.
  intros Hd Hp.
  rewrite get_add_dev_deps, !get_add_deps by assumption.
  destruct (JsMap.get (entries_or_empty (PackageJson.peerDependencies pj)) y);
    [reflexivity|].
  destruct (JsMap.get (entries_or_empty (PackageJson.dependencies pj)) y);
    reflexivity.
Qed.

End Merge.

(** ** Construction: the first pass *)

Section FirstPass.
Import DependencyGraph Notions.

Lemma keys_set_same_keys (A B : Type) (m1 : JsMap.t A) (m2 : JsMap.t B)
    k v1 v2 :
  JsMap.keys m1 = JsMap.keys m2 ->
  JsMap.keys (JsMap.set m1 k v1) = JsMap.keys (JsMap.set m2 k v2).
Proof.
  intros H. destruct (JsMap.has m2 k) eqn:E.
  - rewrite (keys_set_present _ m2 k v2 E).
    rewrite keys_set_present; [assumption|].
    apply has_In_keys. rewrite H. now apply has_In_keys.
  - rewrite (keys_set_absent _ m2 k v2 E).
    rewrite keys_set_absent; [now rewrite H|].
    apply has_false_not_In. rewrite H. now apply has_false_not_In.
Qed.

Lemma create_node_wf g repo :
  well_formed g -> well_formed (create_node g repo).
Proof.
  intros [Hk Hn Hd He]. constructor; simpl.
  - now apply NoDup_keys_set.
  - intros k node H. apply In_set in H. destruct H as [[-> ->]|H].
    + reflexivity.
    + eauto.
  - intros k node H. apply In_set in H. destruct H as [[-> ->]|H].
    + apply merge_dependencies_keys.
    + eauto.
  - now apply keys_set_same_keys.
Qed.

Lemma first_pass_wf repos : forall g,
  well_formed g -> well_formed (first_pass g repos).
Proof.
  unfold first_pass. induction repos as [|r repos IH]; simpl; intros g H.
  - assumption.
  - apply IH. now apply create_node_wf.
Qed.

Lemma new_wf : well_formed DependencyGraph.new.
Proof. constructor; simpl; try constructor; intros ? ? []. Qed.

Lemma first_pass_no_edges repos : forall g,
  (forall k tos, In (k, tos) (edges g) -> tos = []) ->
  forall k tos, In (k, tos) (edges (first_pass g repos)) -> tos = [].
Proof.
  unfold first_pass. induction repos as [|r repos IH]; simpl; intros g H.
  - assumption.
  - apply IH. simpl. intros k tos Hin.
    apply In_set in Hin. destruct Hin as [[_ ->]|Hin]; eauto.
Qed.

Lemma first_pass_no_dependents repos : forall g,
  (forall k node, In (k, node) (nodes g) ->
                  DependencyNode.dependents node = []) ->
  forall k node, In (k, node) (nodes (first_pass g repos)) ->
                 DependencyNode.dependents node = [].
Proof.
  unfold first_pass. induction repos as [|r repos IH]; simpl; intros g H.
  - assumption.
  - apply IH. simpl. intros k node Hin.
    apply In_set in Hin. destruct Hin as [[_ ->]|Hin]; eauto.
Qed.

Lemma first_pass_origin repos : forall g k node,
  In (k, node) (nodes (first_pass g repos)) ->
  In (k, node) (nodes g) \/ exists repo, In repo repos /\ node = make_node repo.
Proof.
  unfold first_pass. induction repos as [|r repos IH]; simpl; intros g k node H.
  - now left.
  - apply IH in H. destruct H as [H|(repo & Hin & ->)].
    + simpl in H. apply In_set in H. destruct H as [[_ ->]|H].
      * right. exists r. auto.
      * now left.
    + right. exists repo. auto.
Qed.

Lemma first_pass_other repos : forall g k,
  (forall r, In r repos -> Library.name (LocalRepo.library r) <> k) ->
  JsMap.get (nodes (first_pass g repos)) k = JsMap.get (nodes g) k.
Proof.
  unfold first_pass. induction repos as [|r repos IH]; simpl; intros g k H.
  - reflexivity.
  - rewrite IH by (intros r' Hr'; apply H; now right).
    simpl. apply get_set_other. apply H. now left.
Qed.

(** The node of a repo survives the first pass when no later repo has its
    name. *)
Lemma first_pass_last l1 r l2 g :
  (forall r', In r' l2 ->
     Library.name (LocalRepo.library r') <> Library.name (LocalRepo.library r)) ->
  JsMap.get (nodes (first_pass g (l1 ++ r :: l2)))
            (Library.name (LocalRepo.library r)) = Some (make_node r).
Proof.
  intros H. unfold first_pass. rewrite fold_left_app. simpl.
  fold (first_pass g l1).
  fold (first_pass (create_node (first_pass g l1) r) l2).
  rewrite first_pass_other by assumption.
  simpl. apply get_set_same.
Qed.

End FirstPass.

(** ** Construction: the second pass *)

Section SecondPass.
Import DependencyGraph Notions.

Lemma for_each_app (A S : Type) (body : S -> A -> option S) l1 : forall l2 s,
  for_each body (l1 ++ l2) s =
  match for_each body l1 s with
  | Some s' => for_each body l2 s'
  | None => None
  end.
Proof.
  induction l1 as [|x l1 IH]; simpl; intros l2 s.
  - reflexivity.
  - destruct (body s x); [apply IH | reflexivity].
Qed.

Lemma for_each_map (A B S : Type) (body : S -> B -> option S) (f : A -> B) l :
  forall s,
  for_each body (map f l) s = for_each (fun s x => body s (f x)) l s.
Proof.
  induction l as [|x l IH]; simpl; intros s.
  - reflexivity.
  - destruct (body s (f x)); [apply IH | reflexivity].
Qed.

(** The second pass is one loop over the dependency pairs. *)
Lemma second_pass_flat ns : forall g,
  for_each add_edges_of ns g =
  for_each (fun g p => add_edge (fst p) g (snd p)) (dependency_pairs ns) g.
Proof.
  induction ns as [|node ns IH]; simpl; intros g.
  - reflexivity.
  - rewrite for_each_app, for_each_map. unfold add_edges_of at 1. simpl.
    destruct (for_each _ (JsMap.keys (DependencyNode.dependencies node)) g);
      [apply IH | reflexivity].
Qed.

Lemma pass_step_nil g : pass_step [] g g.
Proof. constructor; simpl; auto; intros; tauto. Qed.

Lemma pass_step_has ps g g' k :
  pass_step ps g g' -> JsMap.has (nodes g') k = JsMap.has (nodes g) k.
Proof.
  intros H. destruct (JsMap.has (nodes g) k) eqn:E.
  - apply has_In_keys. rewrite (ps_nodes H). now apply has_In_keys.
  - apply has_false_not_In. rewrite (ps_nodes H). now apply has_false_not_In.
Qed.

Lemma pass_step_trans ps1 ps2 g1 g2 g3 :
  pass_step ps1 g1 g2 -> pass_step ps2 g2 g3 -> pass_step (ps1 ++ ps2) g1 g3.
Proof.
  intros H1 H2. constructor.
  - now rewrite (ps_nodes H2), (ps_nodes H1).
  - now rewrite (ps_edges H2), (ps_edges H1).
  - intros k. now rewrite (ps_declared H2), (ps_declared H1).
  - intros k x. rewrite (ps_added H2), (ps_added H1), in_app_iff.
    rewrite (pass_step_has _ _ _ k H1). tauto.
  - intros H. apply (ps_dependents H2), (ps_dependents H1), H.
Qed.

Lemma add_edge_step m n g :
  JsMap.keys (edges g) = JsMap.keys (nodes g) ->
  exists g', add_edge m g n = Some g' /\ pass_step [(m, n)] g g'.
Proof.
  intros HK. unfold add_edge.
  destruct (JsMap.get (nodes g) n) as [dep_node|] eqn:Hn.
  - assert (Hhas : JsMap.has (nodes g) n = true) by (eapply get_Some_has; eauto).
    assert (Hhe : JsMap.has (edges g) n = true).
    { apply has_In_keys. rewrite HK. now apply has_In_keys. }
    destruct (JsMap.get (edges g) n) as [tos|] eqn:He.
    2:{ apply get_None_has in He. congruence. }
    eexists. split; [reflexivity|]. constructor; simpl.
    + now apply keys_set_present.
    + now apply keys_set_present.
    + intros k. destruct (String.eqb n k) eqn:E.
      * apply String.eqb_eq in E. subst k. now rewrite get_set_same, Hn.
      * apply String.eqb_neq in E. now rewrite get_set_other.
    + intros k x. unfold edges_of; simpl.
      destruct (String.eqb n k) eqn:E.
      * apply String.eqb_eq in E. subst k.
        rewrite get_set_same, He, JsSet_In_add.
        split; [intros [? | ->]; auto | intros [?|[[[=]|[]] _]]; auto].
      * apply String.eqb_neq in E. rewrite get_set_other by assumption.
        split; [auto | intros [?|[[[=]|[]] _]]; congruence].
    + intros Hdep k. unfold dependents_of, edges_of; simpl.
      destruct (String.eqb n k) eqn:E.
      * apply String.eqb_eq in E. subst k. rewrite !get_set_same. simpl.
        specialize (Hdep n). unfold dependents_of, edges_of in Hdep.
        rewrite Hn, He in Hdep. now rewrite Hdep.
      * apply String.eqb_neq in E. rewrite !get_set_other by assumption.
        apply Hdep.
  - exists g. split; [reflexivity|]. constructor; auto.
    intros k x. split; [auto|]. intros [?|[[[=]|[]] Hh]]; [assumption|].
    subst. apply get_None_has in Hn. congruence.
Qed.

Lemma pairs_step ps : forall g,
  JsMap.keys (edges g) = JsMap.keys (nodes g) ->
  exists g',
    for_each (fun g p => add_edge (fst p) g (snd p)) ps g = Some g' /\
    pass_step ps g g'.
Proof.
  induction ps as [|[m n] ps IH]; simpl; intros g HK.
  - exists g. split; [reflexivity | apply pass_step_nil].
  - destruct (add_edge_step m n g HK) as (g1 & -> & H1).
    destruct (IH g1) as (g2 & -> & H2).
    { now rewrite (ps_edges H1), (ps_nodes H1). }
    exists g2. split; [reflexivity|].
    apply (pass_step_trans _ _ _ _ _ H1 H2).
Qed.

Lemma in_dependency_pairs ns x k :
  In (x, k) (dependency_pairs ns) <->
  exists node, In node ns /\ DependencyNode.name node = x /\
               In k (JsMap.keys (DependencyNode.dependencies node)).
Proof.
  unfold dependency_pairs. rewrite in_flat_map. split.
  - intros (node & Hin & H). apply in_map_iff in H.
    destruct H as (k' & [= <- <-] & Hk). eauto.
  - intros (node & Hin & <- & Hk). exists node. split; [assumption|].
    apply in_map_iff. eauto.
Qed.

End SecondPass.

(** ** Construction: the graph that [build_from_repos] returns *)

Section Built.
Import DependencyGraph DependencyGraphBuilder Notions.

Lemma pass_step_node ps g g' k node :
  pass_step ps g g' ->
  JsMap.get (nodes g') k = Some node ->
  exists node0, JsMap.get (nodes g) k = Some node0 /\
                declared node0 = declared node.
Proof.
  intros H Hg. pose proof (ps_declared H k) as Hd. rewrite Hg in Hd.
  destruct (JsMap.get (nodes g) k) as [node0|]; simpl in Hd; [|discriminate].
  exists node0. split; [reflexivity | congruence].
Qed.

Lemma pass_step_node_back ps g g' k node0 :
  pass_step ps g g' ->
  JsMap.get (nodes g) k = Some node0 ->
  exists node, JsMap.get (nodes g') k = Some node /\
               declared node0 = declared node.
Proof.
  intros H Hg. pose proof (ps_declared H k) as Hd. rewrite Hg in Hd.
  destruct (JsMap.get (nodes g') k) as [node|]; simpl in Hd; [|discriminate].
  exists node. split; [reflexivity | congruence].
Qed.

Lemma declared_name n1 n2 :
  declared n1 = declared n2 -> DependencyNode.name n1 = DependencyNode.name n2.
Proof. unfold declared. congruence. Qed.

Lemma declared_dependencies n1 n2 :
  declared n1 = declared n2 ->
  DependencyNode.dependencies n1 = DependencyNode.dependencies n2.
Proof. unfold declared. congruence. Qed.

Lemma declared_version n1 n2 :
  declared n1 = declared n2 ->
  DependencyNode.version n1 = DependencyNode.version n2.
Proof. unfold declared. congruence. Qed.

Lemma pass_step_wf ps g g' :
  pass_step ps g g' -> well_formed g -> well_formed g'.
Proof.
  intros H [Hk Hn Hd He].
  assert (Hk' : NoDup (JsMap.keys (nodes g'))) by now rewrite (ps_nodes H).
  constructor.
  - assumption.
  - intros k node Hin. apply In_get in Hin; [|assumption].
    destruct (pass_step_node _ _ _ _ _ H Hin) as (node0 & H0 & Hdecl).
    rewrite <- (declared_name _ _ Hdecl). eapply Hn, get_In, H0.
  - intros k node Hin. apply In_get in Hin; [|assumption].
    destruct (pass_step_node _ _ _ _ _ H Hin) as (node0 & H0 & Hdecl).
    rewrite <- (declared_dependencies _ _ Hdecl). eapply Hd, get_In, H0.
  - now rewrite (ps_edges H), (ps_nodes H).
Qed.

(** [init_from_repos] on a fresh graph returns: the second pass never
    reaches the failing branch. *)
Lemma build_from_repos_steps repos :
  exists g,
    build_from_repos repos = Some g /\
    pass_step
      (dependency_pairs (JsMap.values (nodes (first_pass DependencyGraph.new repos))))
      (first_pass DependencyGraph.new repos) g.
Proof.
  unfold build_from_repos, init_from_repos, second_pass.
  rewrite second_pass_flat. apply pairs_step.
  apply wf_edges, first_pass_wf, new_wf.
Qed.

Lemma build_from_repos_wf repos g :
  build_from_repos repos = Some g -> well_formed g.
Proof.
  intros H. destruct (build_from_repos_steps repos) as (g' & Hg' & Hstep).
  rewrite H in Hg'. injection Hg' as <-.
  eapply pass_step_wf; [eassumption|]. apply first_pass_wf, new_wf.
Qed.

Lemma first_pass_edges_of repos k :
  edges_of (first_pass DependencyGraph.new repos) k = [].
Proof.
  unfold edges_of.
  destruct (JsMap.get (edges (first_pass DependencyGraph.new repos)) k)
    as [tos|] eqn:E; [|reflexivity].
  apply get_In in E. eapply first_pass_no_edges; [|eassumption].
  intros ? ? [].
Qed.

Lemma first_pass_dependents_of repos k :
  dependents_of (first_pass DependencyGraph.new repos) k = [].
Proof.
  unfold dependents_of.
  destruct (JsMap.get (nodes (first_pass DependencyGraph.new repos)) k)
    as [node|] eqn:E; [|reflexivity].
  apply get_In in E. eapply first_pass_no_dependents; [|eassumption].
  intros ? ? [].
Qed.

Lemma In_values_get (V : Type) (m : JsMap.t V) v :
  In v (JsMap.values m) <-> exists k, In (k, v) m.
Proof.
  unfold JsMap.values. rewrite in_map_iff. split.
  - intros ([k v'] & <- & H). now exists k.
  - intros (k & H). now exists (k, v).
Qed.

(** [edges] after construction: [x] is in [edges[k]] exactly when [k] is a
    node and the node [x] lists [k] among its dependencies. *)
Lemma build_from_repos_edges repos g k x :
  build_from_repos repos = Some g ->
  In x (edges_of g k) <->
  JsMap.has (nodes g) k = true /\
  exists node,
    JsMap.get (nodes g) x = Some node /\
    JsMap.has (DependencyNode.dependencies node) k = true.
Proof.
  intros H. destruct (build_from_repos_steps repos) as (g' & Hg' & Hstep).
  rewrite H in Hg'. injection Hg' as <-.
  pose proof (first_pass_wf repos _ new_wf) as Hwf0.
  rewrite (ps_added Hstep), first_pass_edges_of, in_dependency_pairs.
  rewrite (pass_step_has _ _ _ k Hstep).
  split.
  - intros [[]|[(node0 & Hin & Hname & Hk) Hhas]]. split; [assumption|].
    apply In_values_get in Hin. destruct Hin as (k0 & Hin).
    pose proof (wf_names Hwf0 _ _ Hin) as Hk0. rewrite Hname in Hk0. subst k0.
    apply In_get in Hin; [|apply Hwf0].
    destruct (pass_step_node_back _ _ _ _ _ Hstep Hin) as (node & Hg & Hdecl).
    exists node. split; [assumption|].
    rewrite <- (declared_dependencies _ _ Hdecl). now apply has_In_keys.
  - intros [Hhas (node & Hg & Hk)]. right. split; [|assumption].
    destruct (pass_step_node _ _ _ _ _ Hstep Hg) as (node0 & H0 & Hdecl).
    exists node0. apply get_In in H0. split; [|split].
    + apply In_values_get. eauto.
    + eapply wf_names; eauto.
    + rewrite (declared_dependencies _ _ Hdecl). now apply has_In_keys.
Qed.

(** Each node's [dependents] is the same list as its entry of [edges]. *)
Lemma build_from_repos_dependents repos g k :
  build_from_repos repos = Some g -> dependents_of g k = edges_of g k.
Proof.
  intros H. destruct (build_from_repos_steps repos) as (g' & Hg' & Hstep).
  rewrite H in Hg'. injection Hg' as <-.
  apply (ps_dependents Hstep). intros k'.
  now rewrite first_pass_edges_of, first_pass_dependents_of.
Qed.

(** Every node of the graph was made from one of the repos. *)
Lemma build_from_repos_origin repos g k node :
  build_from_repos repos = Some g ->
  JsMap.get (nodes g) k = Some node ->
  exists repo, In repo repos /\ declared node = declared (make_node repo).
Proof.
  intros H Hg. destruct (build_from_repos_steps repos) as (g' & Hg' & Hstep).
  rewrite H in Hg'. injection Hg' as <-.
  destruct (pass_step_node _ _ _ _ _ Hstep Hg) as (node0 & H0 & Hdecl).
  apply get_In, first_pass_origin in H0. destruct H0 as [[]|(repo & Hin & ->)].
  exists repo. split; [assumption | now symmetry].
Qed.

End Built.

(** ** Relations: reaching a cycle in a finite set *)

Section Closure.
Variable R R' : relation string.

Lemma clos_trans_sub x y :
  (forall a b, R' a b -> clos_trans string R a b) ->
  clos_trans string R' x y -> clos_trans string R x y.
Proof.
  intros Hsub H. induction H as [x y H|x y z _ IH1 _ IH2].
  - now apply Hsub.
  - eapply t_trans; eassumption.
Qed.

Lemma clos_refl_trans_sub x y :
  (forall a b, R' a b -> clos_trans string R a b) ->
  clos_refl_trans string R' x y -> clos_refl_trans string R x y.
Proof.
  intros Hsub H. induction H as [x y H|x|x y z _ IH1 _ IH2].
  - apply clos_t_clos_rt. now apply Hsub.
  - apply rt_refl.
  - eapply rt_trans; eassumption.
Qed.

(** The last edge of a path to a node that is on or below a cycle starts
    at a node that is on or below a cycle too. *)
Lemma below_cycle_pred y :
  Notions.below_cycle R y -> exists z, Notions.below_cycle R z /\ R z y.
Proof.
  intros (c & Hc & Hcy).
  assert (Hplus : clos_trans string R c y).
  { apply clos_rt_rtn1 in Hcy. destruct Hcy as [|z y Hzy Hcz].
    - assumption.
    - apply clos_rtn1_rt in Hcz. eapply clos_rt_t; [eassumption|].
      now apply t_step. }
  apply clos_trans_tn1 in Hplus. destruct Hplus as [y Hy|y z Hyz Hcy'].
  - exists c. split; [|assumption]. exists c. split; [assumption|apply rt_refl].
  - exists y. split; [|assumption]. exists c. split; [assumption|].
    apply clos_t_clos_rt. now apply clos_tn1_trans.
Qed.

End Closure.

(** In a finite set in which every element has a predecessor, every element
    is on or below a cycle. *)
Lemma no_source_below_cycle : forall n (l : list string) (R : relation string),
  List.length l <= n ->
  (forall x, In x l -> exists y, In y l /\ R y x) ->
  forall u, In u l -> Notions.below_cycle R u.
Proof.
  induction n as [|n IH]; intros l R Hlen Hpred u Hu.
  - destruct l; [destruct Hu | simpl in Hlen; lia].
  - destruct (Hpred u Hu) as (p & Hp & Hpu).
    destruct (string_dec p u) as [->|Hne].
    + exists u. split; [now apply t_step | apply rt_refl].
    + set (R' := fun y z => R y z \/ (R y u /\ R u z)).
      assert (Hsub : forall a b, R' a b -> clos_trans string R a b).
      { intros a b [H|[H1 H2]]; [now apply t_step|].
        eapply t_trans; apply t_step; eassumption. }
      destruct (IH (remove string_dec u l) R') with (u := p) as (c & Hc & Hcp).
      * pose proof (remove_length_lt string_dec l u Hu). lia.
      * intros z Hz. apply in_remove in Hz. destruct Hz as [Hz Hzu].
        destruct (Hpred z Hz) as (y & Hy & Hyz).
        destruct (string_dec y u) as [->|Hyu].
        -- exists p. split; [now apply in_in_remove|]. right. auto.
        -- exists y. split; [now apply in_in_remove|]. now left.
      * now apply in_in_remove.
      * exists c. split.
        -- eapply clos_trans_sub; eassumption.
        -- eapply rt_trans; [eapply clos_refl_trans_sub; eassumption|].
           now apply rt_step.
Qed.

(** ** The sort of [@fuzdev/fuz_util/sort.js] *)

Section Kahn.
Import Sort Notions.

Lemma mem_In x l : mem x l = true <-> In x l.
Proof.
  unfold mem. rewrite existsb_exists. split.
  - intros (y & Hy & E). apply String.eqb_eq in E. now subst.
  - intros H. exists x. split; [assumption | apply String.eqb_refl].
Qed.

Lemma ready_true pending item :
  ready pending item = true <->
  forall d, In d (depends_on item) -> ~ In d (ids pending).
Proof.
  unfold ready. rewrite forallb_forall. split; intros H d Hd.
  - specialize (H d Hd). rewrite negb_true_iff in H.
    rewrite <- mem_In. congruence.
  - rewrite negb_true_iff. specialize (H d Hd). rewrite <- mem_In in H.
    now destruct (mem d (ids pending)).
Qed.

Lemma ready_false pending item :
  ready pending item = false ->
  exists d, In d (depends_on item) /\ In d (ids pending).
Proof.
  unfold ready. intros H.
  destruct (existsb (fun d => mem d (ids pending)) (depends_on item)) eqn:E.
  - apply existsb_exists in E. destruct E as (d & Hd & Hm).
    exists d. split; [assumption | now apply mem_In].
  - exfalso. rewrite <- not_true_iff_false in H. apply H.
    apply forallb_forall. intros d Hd.
    destruct (mem d (ids pending)) eqn:Hm; [|reflexivity].
    rewrite <- not_true_iff_false in E. exfalso. apply E.
    apply existsb_exists. eauto.
Qed.

Lemma extract_Some (A : Type) (p : A -> bool) l : forall x rest,
  extract p l = Some (x, rest) ->
  p x = true /\ Permutation l (x :: rest) /\
  List.length l = S (List.length rest).
Proof.
  induction l as [|a l IH]; simpl; intros x rest H.
  - discriminate.
  - destruct (p a) eqn:Ea.
    + injection H as <- <-. auto.
    + destruct (extract p l) as [[y r]|]; [|discriminate].
      injection H as <- <-.
      destruct (IH y r eq_refl) as (Hp & Hperm & Hlen).
      split; [assumption|]. split.
      * rewrite Hperm. apply perm_swap.
      * simpl. now rewrite Hlen.
Qed.

Lemma extract_None (A : Type) (p : A -> bool) l :
  extract p l = None -> forall x, In x l -> p x = false.
Proof.
  induction l as [|a l IH]; simpl; intros H x Hx.
  - destruct Hx.
  - destruct (p a) eqn:Ea; [discriminate|].
    destruct (extract p l) as [[y r]|]; [discriminate|].
    destruct Hx as [<-|Hx]; auto.
Qed.

Lemma app_snoc_split (A : Type) (l1 : list A) x l2 s y :
  l1 ++ x :: l2 = s ++ [y] ->
  (l2 = [] /\ l1 = s /\ x = y) \/
  (exists l2', l2 = l2' ++ [y] /\ s = l1 ++ x :: l2').
Proof.
  destruct l2 as [|z l2 _] using rev_ind.
  - intros H. apply app_inj_tail in H. now left.
  - intros H. right. exists l2.
    rewrite app_comm_cons, app_assoc in H. apply app_inj_tail in H.
    destruct H as [<- <-]. auto.
Qed.

Lemma unique_id items a b :
  NoDup (ids items) -> In a items -> In b items -> id a = id b -> a = b.
Proof.
  unfold ids. induction items as [|c items IH]; simpl; intros Hnd Ha Hb E.
  - destruct Ha.
  - inversion Hnd as [|? ? Hnot Hnd']; subst.
    destruct Ha as [->|Ha], Hb as [->|Hb].
    + reflexivity.
    + exfalso. apply Hnot. rewrite E. now apply in_map.
    + exfalso. apply Hnot. rewrite <- E. now apply in_map.
    + now apply IH.
Qed.

Variable items : list Sortable.
Hypothesis items_unique : NoDup (ids items).

Lemma sort_invariant_start : sort_invariant items items [].
Proof.
  constructor.
  - apply Permutation_refl.
  - intros l1 item l2 H. destruct l1; discriminate.
  - intros y (c & Hc & Hcy).
    assert (H : clos_trans string (needs items) c y \/ c = y).
    { apply clos_rt_rtn1 in Hcy. destruct Hcy as [|z y Hzy Hcz]; [now right|].
      left. apply clos_rtn1_rt in Hcz. eapply clos_rt_t; [eassumption|].
      now apply t_step. }
    assert (Hy : clos_trans string (needs items) c y)
      by (destruct H as [H| <-]; assumption).
    apply clos_trans_tn1 in Hy.
    destruct Hy as [y (it & Hin & <- & _)|y z (it & Hin & <- & _) _];
      now apply in_map.
Qed.

Lemma sort_invariant_step pending sorted item rest :
  sort_invariant items pending sorted ->
  extract (ready pending) pending = Some (item, rest) ->
  sort_invariant items rest (sorted ++ [item]).
Proof.
  intros Hinv Hex.
  destruct (extract_Some _ _ _ _ _ Hex) as (Hready & Hperm & _).
  assert (Hitem : In item items).
  { apply (Permutation_in _ (si_perm Hinv)), in_or_app. right.
    apply (Permutation_in _ (Permutation_sym Hperm)). now left. }
  constructor.
  - rewrite <- app_assoc. simpl. rewrite <- Hperm. apply (si_perm Hinv).
  - intros l1 it l2 Hsplit d Hd Hdi.
    symmetry in Hsplit. apply app_snoc_split in Hsplit.
    destruct Hsplit as [(-> & -> & ->)|(l2' & -> & ->)].
    + pose proof (proj1 (ready_true pending item) Hready d Hd) as Hnot.
      unfold ids in Hdi.
      rewrite <- (Permutation_map id (si_perm Hinv)) in Hdi.
      rewrite map_app, in_app_iff in Hdi. destruct Hdi; [assumption|tauto].
    + eapply (si_order Hinv); eauto.
  - intros y Hy. pose proof (si_cycles Hinv y Hy) as Hpend.
    unfold ids in Hpend. rewrite (Permutation_map id Hperm) in Hpend.
    destruct Hpend as [<-|Hrest]; [|assumption]. exfalso.
    destruct (below_cycle_pred _ _ Hy) as (z & Hz & (it & Hit & Hid & Hzd & _)).
    assert (it = item) by (apply unique_id with items; auto). subst it.
    apply (proj1 (ready_true pending item) Hready z Hzd).
    apply (si_cycles Hinv z Hz).
Qed.

(** The sort stops in a state in which no pending item is ready. *)
Lemma kahn_final : forall rounds pending sorted,
  rounds = List.length pending ->
  sort_invariant items pending sorted ->
  exists pending' sorted',
    kahn rounds pending sorted = finish pending' sorted' /\
    sort_invariant items pending' sorted' /\
    (forall item, In item pending' -> ready pending' item = false).
Proof.
  induction rounds as [|rounds IH]; intros pending sorted Hlen Hinv; simpl.
  - destruct pending; [|discriminate].
    exists [], sorted. split; [reflexivity|]. split; [assumption|].
    intros ? [].
  - destruct (extract (ready pending) pending) as [[item rest]|] eqn:Hex.
    + apply IH.
      * destruct (extract_Some _ _ _ _ _ Hex) as (_ & _ & Hl). lia.
      * eapply sort_invariant_step; eassumption.
    + exists pending, sorted. split; [reflexivity|]. split; [assumption|].
      now apply extract_None.
Qed.

Lemma topological_sort_final label :
  exists pending sorted,
    topological_sort items label = finish pending sorted /\
    sort_invariant items pending sorted /\
    (forall item, In item pending -> ready pending item = false).
Proof.
  unfold topological_sort. apply kahn_final;
    [reflexivity | apply sort_invariant_start].
Qed.

(** A successful sort returns all items, each after its dependencies. *)
Lemma topological_sort_ok label sorted :
  topological_sort items label = Ok sorted ->
  Permutation sorted items /\
  (forall d x, needs items d x -> before (ids sorted) d x) /\
  (forall x, ~ clos_trans string (needs items) x x).
Proof.
  intros H. destruct (topological_sort_final label) as (p & s & Hf & Hinv & _).
  rewrite H in Hf. destruct p; [|discriminate]. injection Hf as <-.
  pose proof (si_perm Hinv) as Hperm. rewrite app_nil_r in Hperm.
  split; [assumption|]. split.
  - intros d x (it & Hit & <- & Hd & Hdi).
    apply (Permutation_in _ (Permutation_sym Hperm)) in Hit.
    apply in_split in Hit. destruct Hit as (l1 & l2 & ->).
    pose proof (si_order Hinv l1 it l2 eq_refl d Hd Hdi) as Hd1.
    apply in_split in Hd1. destruct Hd1 as (a & b & Hab).
    exists a, b, (ids l2). unfold ids in *.
    rewrite map_app, Hab, <- app_assoc. reflexivity.
  - intros x Hx. apply (si_cycles Hinv x). exists x. split;
      [assumption | apply rt_refl].
Qed.

(** A failed sort reports the items on or below a cycle, and there are
    some. *)
Lemma topological_sort_failed label error :
  topological_sort items label = Failed error ->
  unresolved error <> [] /\
  (forall u, In u (unresolved error) <-> below_cycle (needs items) u).
Proof.
  intros H. destruct (topological_sort_final label) as (p & s & Hf & Hinv & Hstuck).
  rewrite H in Hf. destruct p as [|a p]; [discriminate|].
  injection Hf as ->. simpl unresolved. split; [discriminate|].
  intros u. split; [|apply (si_cycles Hinv)].
  intros Hu.
  set (R := fun d x => needs items d x).
  apply (no_source_below_cycle (List.length (ids (a :: p))) (ids (a :: p)));
    [lia| |assumption].
  intros x Hx. apply in_map_iff in Hx. destruct Hx as (it & <- & Hit).
  destruct (ready_false _ _ (Hstuck it Hit)) as (d & Hd & Hdp).
  exists d. split; [assumption|]. exists it.
  assert (Hsub : forall y, In y (a :: p) -> In y items).
  { intros y Hy. apply (Permutation_in _ (si_perm Hinv)), in_or_app. now right. }
  split; [auto|]. split; [reflexivity|]. split; [assumption|].
  apply in_map_iff in Hdp. destruct Hdp as (it' & <- & Hit').
  apply in_map. auto.
Qed.

(** The sort succeeds exactly on the item lists without a cycle. *)
Lemma topological_sort_ok_iff label :
  (exists sorted, topological_sort items label = Ok sorted) <->
  (forall x, ~ clos_trans string (needs items) x x).
Proof.
  split.
  - intros (sorted & H). now apply (topological_sort_ok label sorted).
  - intros Hacyc. destruct (topological_sort items label) as [s|e] eqn:E.
    + eauto.
    + exfalso. destruct (topological_sort_failed label e E) as (Hne & Hu).
      destruct (unresolved e) as [|u us]; [congruence|].
      destruct (proj1 (Hu u) (or_introl eq_refl)) as (c & Hc & _).
      exact (Hacyc c Hc).
Qed.

End Kahn.

(** ** [DependencyGraph.topological_sort] *)

Section GraphSort.
Import DependencyGraph DependencyGraphBuilder Notions.

Lemma DependencyType_eqb_eq a b : DependencyType_eqb a b = true <-> a = b.
Proof. destruct a, b; simpl; split; congruence. Qed.

Lemma retained_true this_nodes exclude_dev e :
  retained this_nodes exclude_dev e = true <->
  (exclude_dev = true -> DependencySpec.type (snd e) <> DEV) /\
  JsMap.has this_nodes (fst e) = true.
Proof.
  unfold retained.
  destruct exclude_dev; simpl.
  - destruct (DependencyType_eqb (DependencySpec.type (snd e)) DEV) eqn:E.
    + apply DependencyType_eqb_eq in E. split; [discriminate|].
      intros [H _]. now destruct (H eq_refl).
    + split; [|tauto]. intros H. split; [|assumption].
      intros _ Hdev. apply DependencyType_eqb_eq in Hdev. congruence.
  - split; [|tauto]. intros H. split; [discriminate | assumption].
Qed.

Lemma sort_items_ids g exclude_dev :
  well_formed g ->
  Sort.ids (sort_items (nodes g) exclude_dev) = JsMap.keys (nodes g).
Proof.
  intros Hwf. unfold Sort.ids, sort_items, JsMap.values, JsMap.keys.
  rewrite !map_map. apply map_ext_in. intros [k node] Hin. simpl.
  now apply (wf_names Hwf).
Qed.

Lemma needs_depends g exclude_dev d x :
  well_formed g ->
  needs (sort_items (nodes g) exclude_dev) d x <-> depends g exclude_dev d x.
Proof.
  intros Hwf. unfold needs, depends. split.
  - intros (it & Hit & Hid & Hd & _).
    unfold sort_items in Hit. apply in_map_iff in Hit.
    destruct Hit as (node & <- & Hnode). simpl in Hid, Hd.
    apply In_values_get in Hnode. destruct Hnode as (k & Hk).
    pose proof (wf_names Hwf _ _ Hk) as Hname. rewrite Hid in Hname. subst k.
    apply in_map_iff in Hd. destruct Hd as ([d' spec] & Hfst & Hf).
    simpl in Hfst. subst d'. apply filter_In in Hf. destruct Hf as [Hin Hret].
    apply retained_true in Hret. destruct Hret as [Hty Hhas].
    exists node, spec. split; [apply In_get; [apply Hwf | assumption]|].
    split; [|split; assumption].
    apply In_get; [|assumption]. eapply (wf_deps Hwf); eassumption.
  - intros (node & spec & Hnode & Hspec & Hty & Hhas).
    apply get_In in Hnode. apply get_In in Hspec.
    exists (Sort.mk (DependencyNode.name node)
              (map fst (filter (retained (nodes g) exclude_dev)
                          (JsMap.entries (DependencyNode.dependencies node))))).
    split; [|split; [|split]].
    + unfold sort_items. apply in_map_iff. exists node. split; [reflexivity|].
      apply In_values_get. eauto.
    + simpl. eapply (wf_names Hwf); eassumption.
    + simpl. apply in_map_iff. exists (d, spec). split; [reflexivity|].
      apply filter_In. split; [assumption|]. now apply retained_true.
    + rewrite sort_items_ids by assumption. now apply has_In_keys.
Qed.

Lemma clos_trans_needs_depends g exclude_dev x y :
  well_formed g ->
  clos_trans string (needs (sort_items (nodes g) exclude_dev)) x y <->
  clos_trans string (depends g exclude_dev) x y.
Proof.
  intros Hwf. split; apply clos_trans_sub; intros a b H; apply t_step;
    now apply (needs_depends g exclude_dev a b Hwf).
Qed.

Lemma below_cycle_needs_depends g exclude_dev y :
  well_formed g ->
  below_cycle (needs (sort_items (nodes g) exclude_dev)) y <->
  below_cycle (depends g exclude_dev) y.
Proof.
  intros Hwf. split; intros (c & Hc & Hcy); exists c; split.
  - now apply clos_trans_needs_depends.
  - eapply clos_refl_trans_sub; [|eassumption]. intros a b H. apply t_step.
    now apply (needs_depends g exclude_dev a b Hwf).
  - now apply clos_trans_needs_depends.
  - eapply clos_refl_trans_sub; [|eassumption]. intros a b H. apply t_step.
    now apply (needs_depends g exclude_dev a b Hwf).
Qed.

Lemma sort_items_unique g exclude_dev :
  well_formed g -> NoDup (Sort.ids (sort_items (nodes g) exclude_dev)).
Proof.
  intros Hwf. rewrite sort_items_ids by assumption. apply Hwf.
Qed.

Lemma topological_sort_result exclude_dev g :
  result_of (topological_sort exclude_dev) g =
  match Sort.topological_sort (sort_items (nodes g) exclude_dev) "package" with
  | Sort.Failed error => Throw (mk_Error error)
  | Sort.Ok sorted => Return (map Sort.id sorted)
  end.
Proof. reflexivity. Qed.

(** On an acyclic graph the sort returns. *)
Lemma topological_sort_returns g exclude_dev :
  well_formed g -> acyclic g exclude_dev ->
  exists order,
    result_of (topological_sort exclude_dev) g = Return order /\
    Permutation order (JsMap.keys (nodes g)) /\
    forall dependency dependent,
      depends g exclude_dev dependency dependent ->
      before order dependency dependent.
Proof.
  intros Hwf Hacyc. rewrite topological_sort_result.
  pose proof (sort_items_unique g exclude_dev Hwf) as Hnd.
  destruct (proj2 (topological_sort_ok_iff _ Hnd "package")) as (sorted & Hs).
  { intros x Hx. apply (Hacyc x). now apply clos_trans_needs_depends in Hx. }
  rewrite Hs. exists (map Sort.id sorted). split; [reflexivity|].
  destruct (topological_sort_ok _ Hnd _ _ Hs) as (Hperm & Hord & _).
  split.
  - rewrite <- (sort_items_ids g exclude_dev Hwf). now apply Permutation_map.
  - intros d x Hdx. apply Hord. now apply needs_depends.
Qed.

(** A sort that returns was run on an acyclic graph. *)
Lemma topological_sort_return_acyclic g exclude_dev order :
  well_formed g ->
  result_of (topological_sort exclude_dev) g = Return order ->
  acyclic g exclude_dev.
Proof.
  intros Hwf H. rewrite topological_sort_result in H.
  pose proof (sort_items_unique g exclude_dev Hwf) as Hnd.
  destruct (Sort.topological_sort _ _) as [sorted|e] eqn:Hs; [|discriminate].
  destruct (topological_sort_ok _ Hnd _ _ Hs) as (_ & _ & Hacyc).
  intros x Hx. apply (Hacyc x). now apply clos_trans_needs_depends.
Qed.

(** A sort that throws reports the nodes on or below a cycle. *)
Lemma topological_sort_throws g exclude_dev e :
  well_formed g ->
  result_of (topological_sort exclude_dev) g = Throw e ->
  Sort.unresolved (message e) <> [] /\
  forall u, In u (Sort.unresolved (message e)) <->
            below_cycle (depends g exclude_dev) u.
Proof.
  intros Hwf H. rewrite topological_sort_result in H.
  pose proof (sort_items_unique g exclude_dev Hwf) as Hnd.
  destruct (Sort.topological_sort _ _) as [sorted|err] eqn:Hs; [discriminate|].
  injection H as <-. simpl.
  destruct (topological_sort_failed _ Hnd _ _ Hs) as (Hne & Hu).
  split; [assumption|]. intros u. rewrite Hu.
  now apply below_cycle_needs_depends.
Qed.

Lemma dev_only_acyclic g : cycles_are_dev_only g -> acyclic g true.
Proof.
  intros H x Hx. apply clos_trans_t1n in Hx.
  assert (Hsub : forall a b, depends g true a b -> depends g false a b).
  { intros a b (node & spec & H1 & H2 & _ & H3).
    exists node, spec. repeat split; auto. discriminate. }
  inversion Hx as [y Hxy|y z Hxy Hyx]; subst.
  - apply (H x x Hxy). apply rt_refl.
  - apply (H x y Hxy). apply clos_t1n_trans in Hyx.
    apply clos_t_clos_rt. eapply clos_trans_sub; [|eassumption].
    intros a b Hab. apply t_step. now apply Hsub.
Qed.

(** A graph all of whose dependencies are of type [dev]. *)
Lemma all_dev_cycles_are_dev_only g :
  forallb (fun n =>
             forallb (fun e => DependencyType_eqb (DependencySpec.type (snd e)) DEV)
                     (DependencyNode.dependencies (snd n)))
          (nodes g) = true ->
  cycles_are_dev_only g.
Proof.
  intros H x y (node & spec & Hn & Hs & Hty & _) _.
  apply Hty; [reflexivity|].
  apply get_In in Hn. apply get_In in Hs.
  rewrite forallb_forall in H. specialize (H _ Hn). simpl in H.
  rewrite forallb_forall in H. specialize (H _ Hs). simpl in H.
  now apply DependencyType_eqb_eq.
Qed.

End GraphSort.

(** ** Cycle detection: subsequences *)

Section Subseq.
Import Notions.

Lemma subseq_refl l : subseq l l.
Proof. induction l; [apply subseq_nil | now apply subseq_take]. Qed.

Lemma subseq_nil_l l : subseq [] l.
Proof. induction l; constructor; assumption. Qed.

Lemma subseq_app_r s l ext : subseq s l -> subseq s (l ++ ext).
Proof.
  induction 1; simpl.
  - apply subseq_nil_l.
  - now apply subseq_skip.
  - now apply subseq_take.
Qed.

Lemma subseq_snoc s l x : subseq s l -> subseq (s ++ [x]) (l ++ [x]).
Proof.
  induction 1; simpl.
  - apply subseq_refl.
  - now apply subseq_skip.
  - now apply subseq_take.
Qed.

Lemma subseq_In s l x : subseq s l -> In x s -> In x l.
Proof.
  induction 1; simpl; intros Hx.
  - assumption.
  - right. auto.
  - destruct Hx; [now left | right; auto].
Qed.

Lemma subseq_trans s l : subseq s l -> forall m, subseq l m -> subseq s m.
Proof.
  intros Hs m Hm. revert s Hs.
  induction Hm as [|x l m Hm IH|x l m Hm IH]; intros s Hs.
  - assumption.
  - constructor. now apply IH.
  - inversion Hs; subst.
    + apply subseq_skip. now apply IH.
    + apply subseq_take. now apply IH.
Qed.

Lemma subseq_skipn i : forall l, subseq (skipn i l) l.
Proof.
  induction i as [|i IH]; intros l; simpl.
  - apply subseq_refl.
  - destruct l; [apply subseq_nil|]. apply subseq_skip. apply IH.
Qed.

(** A list without repetition has one subsequence for each set of
    elements. *)
Lemma subseq_unique l : forall s1 s2,
  NoDup l -> subseq s1 l -> subseq s2 l ->
  (forall x, In x s1 <-> In x s2) -> s1 = s2.
Proof.
  induction l as [|a l IH]; intros s1 s2 Hnd H1 H2 Hsame.
  - inversion H1; inversion H2; subst. reflexivity.
  - inversion Hnd as [|? ? Hnot Hnd']; subst.
    inversion H1 as [|? ? ? H1'|? s1' ? H1']; subst;
      inversion H2 as [|? ? ? H2'|? s2' ? H2']; subst.
    + apply IH; assumption.
    + exfalso. apply Hnot. apply (subseq_In _ _ _ H1').
      apply Hsame. now left.
    + exfalso. apply Hnot. apply (subseq_In _ _ _ H2').
      apply Hsame. now left.
    + f_equal. apply IH; try assumption.
      intros x. split; intros Hx.
      * destruct (proj1 (Hsame x) (or_intror Hx)) as [->|]; [|assumption].
        exfalso. apply Hnot. exact (subseq_In _ _ _ H1' Hx).
      * destruct (proj2 (Hsame x) (or_intror Hx)) as [->|]; [|assumption].
        exfalso. apply Hnot. exact (subseq_In _ _ _ H2' Hx).
Qed.

End Subseq.

(** ** Cycle detection: what the search keeps true *)

Section DfsInvariant.
Import DependencyGraph Notions.

Variable this_nodes : JsMap.t DependencyNode.t.
Variable include : DependencySpec.t -> bool.

Lemma indexOf_In path x :
  In x path ->
  exists i rest, indexOf path x = Some i /\ skipn i path = x :: rest.
Proof.
  induction path as [|y path IH]; simpl; intros H.
  - destruct H.
  - destruct (String.eqb y x) eqn:E.
    + apply String.eqb_eq in E. subst y. exists 0, path. auto.
    + apply String.eqb_neq in E. destruct H as [H|H]; [congruence|].
      destruct (IH H) as (i & rest & -> & Hs). exists (S i), rest. auto.
Qed.

Lemma record_cycle_ok path dep_name st :
  dfs_invariant st -> subseq path (visited st) -> In dep_name path ->
  dfs_invariant (record_cycle path dep_name st) /\
  visited (record_cycle path dep_name st) = visited st /\
  rec_stack (record_cycle path dep_name st) = rec_stack st.
Proof.
  intros Hinv Hpath Hin. unfold record_cycle.
  destruct (indexOf_In path dep_name Hin) as (i & rest & -> & Hskip).
  simpl slice. rewrite Hskip.
  destruct (existsb _ (cycles st)) eqn:Hex; simpl; [auto|].
  split; [|auto]. constructor; simpl.
  - apply Hinv.
  - rewrite map_app. simpl.
    apply NoDup_app; [apply Hinv | repeat constructor; simpl; tauto |].
    intros key Hkey [<-|[]]. apply in_map_iff in Hkey.
    destruct Hkey as (c & Hck & Hc).
    assert (Ht : existsb
              (fun c => String.eqb (cycle_key c)
                          (cycle_key ((dep_name :: rest) ++ [dep_name])))
              (cycles st) = true).
    { apply existsb_exists. exists c. split; [exact Hc|].
      now apply String.eqb_eq. }
    congruence.
  - intros c Hc. apply in_app_iff in Hc. destruct Hc as [Hc|[<-|[]]].
    + now apply (di_cycles Hinv).
    + exists (dep_name :: rest). split; [discriminate|]. split; [reflexivity|].
      rewrite <- Hskip. eapply subseq_trans; [apply subseq_skipn | assumption].
Qed.

Section Loop.

Variable visit : string -> list string -> DfsState -> option DfsState.
Hypothesis visit_ok : forall name path st st',
  visit name path st = Some st' ->
  dfs_invariant st -> ~ In name (visited st) ->
  subseq path (visited st) -> incl (rec_stack st) path ->
  dfs_invariant st' /\
  (exists ext, visited st' = visited st ++ ext) /\
  incl (rec_stack st') (rec_stack st).

Lemma visit_dep_ok path st e st' :
  visit_dep visit this_nodes include path st e = Some st' ->
  dfs_invariant st -> subseq path (visited st) -> incl (rec_stack st) path ->
  dfs_invariant st' /\
  (exists ext, visited st' = visited st ++ ext) /\
  incl (rec_stack st') (rec_stack st).
Proof.
  unfold visit_dep. intros H Hinv Hpath Hstack.
  assert (Hsame : Some st = Some st' ->
                  dfs_invariant st' /\
                  (exists ext, visited st' = visited st ++ ext) /\
                  incl (rec_stack st') (rec_stack st)).
  { intros [= <-]. split; [assumption|]. split; [|apply incl_refl].
    exists []. now rewrite app_nil_r. }
  destruct (negb (include (snd e))); [auto|].
  destruct (JsMap.has this_nodes (fst e)); [|auto].
  destruct (JsSet.has (visited st) (fst e)) eqn:Hv; simpl in H.
  - destruct (JsSet.has (rec_stack st) (fst e)) eqn:Hr; [|auto].
    injection H as <-.
    apply JsSet_has_In in Hr.
    destruct (record_cycle_ok path (fst e) st Hinv Hpath (Hstack _ Hr))
      as (Hinv' & -> & ->).
    split; [assumption|]. split; [|apply incl_refl].
    exists []. now rewrite app_nil_r.
  - apply JsSet_has_false in Hv. eapply visit_ok; eassumption.
Qed.

Lemma loop_ok path deps : forall st st',
  for_each (visit_dep visit this_nodes include path) deps st = Some st' ->
  dfs_invariant st -> subseq path (visited st) -> incl (rec_stack st) path ->
  dfs_invariant st' /\
  (exists ext, visited st' = visited st ++ ext) /\
  incl (rec_stack st') (rec_stack st).
Proof.
  induction deps as [|e deps IH]; simpl; intros st st' H Hinv Hpath Hstack.
  - injection H as <-. split; [assumption|]. split; [|apply incl_refl].
    exists []. now rewrite app_nil_r.
  - destruct (visit_dep visit this_nodes include path st e) as [st1|] eqn:E;
      [|discriminate].
    destruct (visit_dep_ok _ _ _ _ E Hinv Hpath Hstack)
      as (Hinv1 & (ext1 & Hext1) & Hstack1).
    destruct (IH st1 st' H Hinv1) as (Hinv' & (ext & Hext) & Hstack').
    + rewrite Hext1. now apply subseq_app_r.
    + eapply incl_tran; eassumption.
    + split; [assumption|]. split.
      * exists (ext1 ++ ext). now rewrite Hext, Hext1, app_assoc.
      * eapply incl_tran; eassumption.
Qed.

End Loop.

Lemma dfs_ok depth : forall name path st st',
  dfs depth this_nodes include name path st = Some st' ->
  dfs_invariant st -> ~ In name (visited st) ->
  subseq path (visited st) -> incl (rec_stack st) path ->
  dfs_invariant st' /\
  (exists ext, visited st' = visited st ++ ext) /\
  incl (rec_stack st') (rec_stack st).
Proof.
  induction depth as [|depth IH]; intros name path st st' H Hinv Hnew Hpath Hstack.
  - discriminate.
  - simpl in H.
    set (st1 := {| cycles := cycles st;
                   visited := JsSet.add (visited st) name;
                   rec_stack := JsSet.add (rec_stack st) name |}) in *.
    assert (Hv1 : visited st1 = visited st ++ [name]).
    { simpl. unfold JsSet.add.
      apply JsSet_has_false in Hnew. now rewrite Hnew. }
    assert (Hinv1 : dfs_invariant st1).
    { constructor.
      - rewrite Hv1. apply NoDup_app; [apply Hinv | repeat constructor; simpl; tauto |].
        intros x Hx [<-|[]]. contradiction.
      - apply Hinv.
      - intros c Hc. destruct (di_cycles Hinv c Hc) as (s & Hs & Hc' & Hsub).
        exists s. split; [assumption|]. split; [assumption|].
        rewrite Hv1. now apply subseq_app_r. }
    assert (Hpath1 : subseq (path ++ [name]) (visited st1)).
    { rewrite Hv1. now apply subseq_snoc. }
    assert (Hstack1 : incl (rec_stack st1) (path ++ [name])).
    { intros x Hx. simpl in Hx. apply JsSet_In_add in Hx.
      apply in_app_iff. destruct Hx as [Hx| ->]; [left; auto | right; now left]. }
    assert (Hloop : exists st2,
               match JsMap.get this_nodes name with
               | Some node =>
                   for_each
                     (visit_dep (dfs depth this_nodes include)
                                this_nodes include (path ++ [name]))
                     (JsMap.entries (DependencyNode.dependencies node)) st1
               | None => Some st1
               end = Some st2 /\
               st' = {| cycles := cycles st2; visited := visited st2;
                        rec_stack := JsSet.delete (rec_stack st2) name |}).
    { destruct (match JsMap.get this_nodes name with
                | Some node => _ | None => _ end) as [st2|];
        [|discriminate].
      injection H as <-. eauto. }
    destruct Hloop as (st2 & Hloop & ->). clear H.
    assert (H2 : dfs_invariant st2 /\
                 (exists ext, visited st2 = visited st1 ++ ext) /\
                 incl (rec_stack st2) (rec_stack st1)).
    { destruct (JsMap.get this_nodes name) as [node|].
      - eapply loop_ok; eassumption.
      - injection Hloop as <-. split; [assumption|]. split; [|apply incl_refl].
        exists []. now rewrite app_nil_r. }
    destruct H2 as (Hinv2 & (ext & Hext) & Hstack2).
    split; [|split]; simpl.
    + constructor; simpl; apply Hinv2.
    + exists ([name] ++ ext). now rewrite Hext, Hv1, <- app_assoc.
    + intros x Hx. apply JsSet_In_delete in Hx. destruct Hx as [Hx Hne].
      apply Hstack2 in Hx. simpl in Hx. apply JsSet_In_add in Hx.
      destruct Hx; [assumption | contradiction].
Qed.

Lemma roots_ok depth names : forall st st',
  for_each (visit_root depth this_nodes include) names st = Some st' ->
  dfs_invariant st -> rec_stack st = [] ->
  dfs_invariant st' /\ rec_stack st' = [].
Proof.
  induction names as [|name names IH]; simpl; intros st st' H Hinv Hstack.
  - injection H as <-. auto.
  - destruct (visit_root depth this_nodes include st name) as [st1|] eqn:E;
      [|discriminate].
    apply (IH st1 st' H); unfold visit_root in E.
    + destruct (JsSet.has (visited st) name) eqn:Hv; simpl in E.
      * now injection E as <-.
      * apply JsSet_has_false in Hv.
        eapply dfs_ok in E; try eassumption;
          [apply E | apply subseq_nil_l | rewrite Hstack; apply incl_refl].
    + destruct (JsSet.has (visited st) name) eqn:Hv; simpl in E.
      * now injection E as <-.
      * apply JsSet_has_false in Hv.
        eapply dfs_ok in E; try eassumption;
          [|apply subseq_nil_l | rewrite Hstack; apply incl_refl].
        destruct E as (_ & _ & Hincl). rewrite Hstack in Hincl.
        destruct (rec_stack st1) as [|x r]; [reflexivity|].
        destruct (Hincl x (or_introl eq_refl)).
Qed.

(** Two recorded cycles with the same nodes, or with the same key, are the
    same entry of the list. *)
Lemma find_cycles_in_distinct found :
  find_cycles_in this_nodes include = Some found ->
  forall i j c1 c2,
    nth_error found i = Some c1 -> nth_error found j = Some c2 ->
    same_node_set c1 c2 \/ cycle_key c1 = cycle_key c2 -> i = j.
Proof.
  unfold find_cycles_in. intros H i j c1 c2 H1 H2 Hsame.
  destruct (for_each _ (JsMap.keys this_nodes) _) as [st|] eqn:E;
    [|discriminate].
  injection H as <-.
  destruct (roots_ok _ _ _ _ E) as (Hinv & _).
  { constructor; simpl; [constructor | constructor | intros ? []]. }
  { reflexivity. }
  assert (Hkey : cycle_key c1 = cycle_key c2).
  { destruct Hsame as [Hsame|Hkey]; [|assumption].
    destruct (di_cycles Hinv c1 (nth_error_In _ _ H1))
      as (s1 & Hs1 & -> & Hsub1).
    destruct (di_cycles Hinv c2 (nth_error_In _ _ H2))
      as (s2 & Hs2 & -> & Hsub2).
    assert (Hhd : forall s, s <> [] ->
                  forall x, In x (s ++ [hd "" s]) <-> In x s).
    { intros s Hs x. rewrite in_app_iff. simpl.
      destruct s as [|a s]; [congruence|]. simpl. intuition. }
    assert (s1 = s2).
    { apply (subseq_unique (visited st)); try assumption; [apply Hinv|].
      intros x. rewrite <- (Hhd s1 Hs1), <- (Hhd s2 Hs2). apply Hsame. }
    now subst s2. }
  apply (proj1 (NoDup_nth_error (map cycle_key (cycles st))) (di_keys Hinv)).
  - rewrite length_map. apply nth_error_Some. congruence.
  - rewrite !nth_error_map, H1, H2. simpl. now rewrite Hkey.
Qed.

End DfsInvariant.

(** ** Cycle detection: the bound on nested calls is never reached *)

Section DfsTotal.
Import DependencyGraph Notions.

Variable this_nodes : JsMap.t DependencyNode.t.
Variable include : DependencySpec.t -> bool.

Lemma filter_length_mono (A : Type) (p q : A -> bool) l :
  (forall x, In x l -> p x = true -> q x = true) ->
  List.length (filter p l) <= List.length (filter q l).
Proof.
  induction l as [|a l IH]; simpl; intros H; [lia|].
  assert (IH' : List.length (filter p l) <= List.length (filter q l))
    by (apply IH; intros x Hx; apply H; now right).
  destruct (p a) eqn:Ep.
  - rewrite (H a (or_introl eq_refl) Ep). simpl. lia.
  - destruct (q a); simpl; lia.
Qed.

Lemma filter_length_less (A : Type) (p q : A -> bool) l a :
  (forall x, In x l -> p x = true -> q x = true) ->
  In a l -> p a = false -> q a = true ->
  List.length (filter p l) < List.length (filter q l).
Proof.
  induction l as [|b l IH]; simpl; intros H Ha Hp Hq; [destruct Ha|].
  assert (Hle : List.length (filter p l) <= List.length (filter q l))
    by (apply filter_length_mono; intros x Hx; apply H; now right).
  destruct Ha as [->|Ha].
  - rewrite Hp, Hq. simpl. lia.
  - assert (IH' : List.length (filter p l) < List.length (filter q l))
      by (apply IH; auto; intros x Hx; apply H; now right).
    destruct (p b) eqn:Ep.
    + rewrite (H b (or_introl eq_refl) Ep). simpl. lia.
    + destruct (q b); simpl; lia.
Qed.

Lemma unvisited_mono seen seen' :
  incl seen seen' -> unvisited this_nodes seen' <= unvisited this_nodes seen.
Proof.
  intros H. unfold unvisited. apply filter_length_mono.
  intros x _. rewrite !negb_true_iff, !JsSet_has_false. auto.
Qed.

Lemma unvisited_add seen name :
  In name (JsMap.keys this_nodes) -> ~ In name seen ->
  unvisited this_nodes (JsSet.add seen name) < unvisited this_nodes seen.
Proof.
  intros Hk Hnew. unfold unvisited. apply filter_length_less with name.
  - intros x _. rewrite !negb_true_iff, !JsSet_has_false, JsSet_In_add. tauto.
  - assumption.
  - rewrite negb_false_iff, JsSet_has_In, JsSet_In_add. now right.
  - now rewrite negb_true_iff, JsSet_has_false.
Qed.

Lemma unvisited_bound seen :
  unvisited this_nodes seen <= List.length this_nodes.
Proof.
  unfold unvisited, JsMap.keys.
  rewrite <- (length_map fst this_nodes). apply filter_length_le.
Qed.

Section Loop.

Variable bound : nat.
Variable visit : string -> list string -> DfsState -> option DfsState.
Hypothesis visit_total : forall name path st,
  JsMap.has this_nodes name = true -> ~ In name (visited st) ->
  unvisited this_nodes (visited st) <= bound ->
  exists st', visit name path st = Some st' /\ incl (visited st) (visited st').

Lemma visit_dep_total path st e :
  unvisited this_nodes (visited st) <= bound ->
  exists st',
    visit_dep visit this_nodes include path st e = Some st' /\
    incl (visited st) (visited st').
Proof.
  intros Hb. unfold visit_dep.
  assert (Hsame : exists st', Some st = Some st' /\
                              incl (visited st) (visited st')).
  { exists st. split; [reflexivity | apply incl_refl]. }
  destruct (negb (include (snd e))); [assumption|].
  destruct (JsMap.has this_nodes (fst e)) eqn:Hh; [|assumption].
  destruct (JsSet.has (visited st) (fst e)) eqn:Hv; simpl.
  - destruct (JsSet.has (rec_stack st) (fst e)); [|assumption].
    eexists. split; [reflexivity|]. unfold record_cycle.
    destruct (negb _); apply incl_refl.
  - apply JsSet_has_false in Hv. now apply visit_total.
Qed.

Lemma loop_total path deps : forall st,
  unvisited this_nodes (visited st) <= bound ->
  exists st',
    for_each (visit_dep visit this_nodes include path) deps st = Some st' /\
    incl (visited st) (visited st').
Proof.
  induction deps as [|e deps IH]; simpl; intros st Hb.
  - exists st. split; [reflexivity | apply incl_refl].
  - destruct (visit_dep_total path st e Hb) as (st1 & -> & H1).
    destruct (IH st1) as (st' & -> & H').
    + pose proof (unvisited_mono _ _ H1). lia.
    + exists st'. split; [reflexivity | eapply incl_tran; eassumption].
Qed.

End Loop.

Lemma dfs_total depth : forall name path st,
  JsMap.has this_nodes name = true -> ~ In name (visited st) ->
  unvisited this_nodes (visited st) <= depth ->
  exists st',
    dfs depth this_nodes include name path st = Some st' /\
    incl (visited st) (visited st').
Proof.
  induction depth as [|depth IH]; intros name path st Hh Hnew Hb.
  - apply has_In_keys in Hh.
    pose proof (unvisited_add (visited st) name Hh Hnew). lia.
  - simpl.
    set (st1 := {| cycles := cycles st;
                   visited := JsSet.add (visited st) name;
                   rec_stack := JsSet.add (rec_stack st) name |}).
    assert (H01 : incl (visited st) (visited st1)).
    { intros x Hx. simpl. apply JsSet_In_add. now left. }
    assert (Hb1 : unvisited this_nodes (visited st1) <= depth).
    { apply has_In_keys in Hh.
      pose proof (unvisited_add (visited st) name Hh Hnew). simpl. lia. }
    destruct (JsMap.get this_nodes name) as [node|].
    + destruct (loop_total depth _ IH (path ++ [name])
                  (JsMap.entries (DependencyNode.dependencies node)) st1 Hb1)
        as (st2 & -> & H2).
      eexists. split; [reflexivity|]. simpl. eapply incl_tran; eassumption.
    + eexists. split; [reflexivity|]. assumption.
Qed.

Lemma roots_total names :
  incl names (JsMap.keys this_nodes) ->
  forall st,
  exists st',
    for_each (visit_root (List.length this_nodes) this_nodes include) names st
    = Some st'.
Proof.
  induction names as [|name names IH]; simpl; intros Hin st.
  - eauto.
  - assert (E : exists st1,
               visit_root (List.length this_nodes) this_nodes include st name
               = Some st1).
    { unfold visit_root.
      destruct (JsSet.has (visited st) name) eqn:Hv; simpl; [eauto|].
      apply JsSet_has_false in Hv.
      destruct (dfs_total (List.length this_nodes) name [] st) as (st1 & H & _).
      - apply has_In_keys, Hin. now left.
      - assumption.
      - apply unvisited_bound.
      - eauto. }
    destruct E as (st1 & ->). apply IH. intros x Hx. apply Hin. now right.
Qed.

(** The search of [#find_cycles] returns. *)
Lemma find_cycles_in_total :
  exists found, find_cycles_in this_nodes include = Some found.
Proof.
  unfold find_cycles_in.
  destruct (roots_total (JsMap.keys this_nodes) (incl_refl _)
              {| cycles := []; visited := JsSet.empty;
                 rec_stack := JsSet.empty |}) as (st & ->).
  simpl. eauto.
Qed.

End DfsTotal.

(** ** Methods that only read *)

Section ReadOnly.
Import DependencyGraph DependencyGraphBuilder Notions.

Lemma read_only_ret (A : Type) (a : A) : read_only (ret a).
Proof. intros this. reflexivity. Qed.

Lemma read_only_read (A : Type) (field : DependencyGraph.t -> A) :
  read_only (read field).
Proof. intros this. reflexivity. Qed.

Lemma read_only_bind (A B : Type) (m : Method A) (k : A -> Method B) :
  read_only m -> (forall a, read_only (k a)) -> read_only (bind m k).
Proof.
  intros Hm Hk this. unfold state_after, bind.
  specialize (Hm this). unfold state_after in Hm.
  destruct (m this) as [a this']. simpl in Hm. subst this'. apply Hk.
Qed.

Lemma read_only_find_cycles include : read_only (find_cycles include).
Proof.
  apply read_only_bind; [apply read_only_read | intros; apply read_only_ret].
Qed.

Lemma read_only_topological_sort exclude_dev :
  read_only (topological_sort exclude_dev).
Proof.
  apply read_only_bind; [apply read_only_read | intros; apply read_only_ret].
Qed.

Lemma read_only_detect_cycles_by_type : read_only detect_cycles_by_type.
Proof.
  apply read_only_bind; [apply read_only_find_cycles | intros].
  apply read_only_bind; [apply read_only_find_cycles | intros].
  apply read_only_ret.
Qed.

Lemma read_only_toJSON : read_only toJSON.
Proof.
  apply read_only_bind; [apply read_only_read | intros].
  apply read_only_bind; [apply read_only_read | intros].
  apply read_only_ret.
Qed.

Lemma read_only_analyze : read_only analyze.
Proof.
  apply read_only_bind; [apply read_only_detect_cycles_by_type | intros].
  apply read_only_bind; [apply read_only_read | intros].
  apply read_only_ret.
Qed.

End ReadOnly.

(** ** The scan of [analyze] *)

Section Scan.
Import DependencyGraph DependencyGraphBuilder Notions.

Variable graph_nodes : JsMap.t DependencyNode.t.

Lemma scan_dep_wildcard node acc e w :
  In w (fst (scan_dep graph_nodes node acc e)) <->
  In w (fst acc) \/
  (DependencySpec.version (snd e) = "*" /\
   w = mk_wildcard (DependencyNode.name node) (fst e)
                   (DependencySpec.version (snd e))).
Proof.
  unfold scan_dep. destruct e as [dep_name spec]. simpl.
  assert (H : In w (fst (if String.eqb (DependencySpec.version spec) "*"
                         then (fst acc ++
                               [mk_wildcard (DependencyNode.name node) dep_name
                                  (DependencySpec.version spec)], snd acc)
                         else acc)) <->
              In w (fst acc) \/
              (DependencySpec.version spec = "*" /\
               w = mk_wildcard (DependencyNode.name node) dep_name
                     (DependencySpec.version spec))).
  { destruct (String.eqb (DependencySpec.version spec) "*") eqn:E.
    - apply String.eqb_eq in E. simpl. rewrite in_app_iff. simpl.
      intuition.
    - apply String.eqb_neq in E. tauto. }
  destruct (DependencyType_eqb (DependencySpec.type spec) PEER
            && negb (JsMap.has graph_nodes dep_name)); exact H.
Qed.

Lemma scan_dep_missing node acc e m :
  In m (snd (scan_dep graph_nodes node acc e)) <->
  In m (snd acc) \/
  (DependencySpec.type (snd e) = PEER /\
   JsMap.has graph_nodes (fst e) = false /\
   m = mk_missing (DependencyNode.name node) (fst e)).
Proof.
  unfold scan_dep. destruct e as [dep_name spec]. simpl.
  assert (H1 : snd (if String.eqb (DependencySpec.version spec) "*"
                    then (fst acc ++
                          [mk_wildcard (DependencyNode.name node) dep_name
                             (DependencySpec.version spec)], snd acc)
                    else acc) = snd acc).
  { now destruct (String.eqb (DependencySpec.version spec) "*"). }
  destruct (DependencyType_eqb (DependencySpec.type spec) PEER) eqn:Et;
    destruct (JsMap.has graph_nodes dep_name) eqn:Eh; simpl; rewrite ?H1.
  - split; [auto | intros [?|(_ & ? & _)]; [assumption | discriminate]].
  - apply DependencyType_eqb_eq in Et. rewrite in_app_iff. simpl. intuition.
  - split; [auto | intros [?|(? & _)]; [assumption|]].
    apply DependencyType_eqb_eq in H. congruence.
  - split; [auto | intros [?|(? & _)]; [assumption|]].
    apply DependencyType_eqb_eq in H. congruence.
Qed.

Lemma scan_node_wildcard node w : forall acc,
  In w (fst (scan_node graph_nodes acc node)) <->
  In w (fst acc) \/
  exists e, In e (JsMap.entries (DependencyNode.dependencies node)) /\
            DependencySpec.version (snd e) = "*" /\
            w = mk_wildcard (DependencyNode.name node) (fst e)
                            (DependencySpec.version (snd e)).
Proof.
  unfold scan_node, JsMap.entries.
  induction (DependencyNode.dependencies node) as [|e es IH]; simpl; intros acc.
  - split; [auto | intros [?|(? & [] & _)]; assumption].
  - rewrite IH, scan_dep_wildcard. split.
    + intros [[?|?]|(e' & ? & ?)]; eauto 6.
    + intros [?|(e' & [<-|?] & ?)]; eauto 6.
Qed.

Lemma scan_node_missing node m : forall acc,
  In m (snd (scan_node graph_nodes acc node)) <->
  In m (snd acc) \/
  exists e, In e (JsMap.entries (DependencyNode.dependencies node)) /\
            DependencySpec.type (snd e) = PEER /\
            JsMap.has graph_nodes (fst e) = false /\
            m = mk_missing (DependencyNode.name node) (fst e).
Proof.
  unfold scan_node, JsMap.entries.
  induction (DependencyNode.dependencies node) as [|e es IH]; simpl; intros acc.
  - split; [auto | intros [?|(? & [] & _)]; assumption].
  - rewrite IH, scan_dep_missing. split.
    + intros [[?|?]|(e' & ? & ?)]; eauto 6.
    + intros [?|(e' & [<-|?] & ?)]; eauto 6.
Qed.

Lemma scan_wildcard ns w : forall acc,
  In w (fst (fold_left (scan_node graph_nodes) ns acc)) <->
  In w (fst acc) \/
  exists node e,
    In node ns /\ In e (JsMap.entries (DependencyNode.dependencies node)) /\
    DependencySpec.version (snd e) = "*" /\
    w = mk_wildcard (DependencyNode.name node) (fst e)
                    (DependencySpec.version (snd e)).
Proof.
  induction ns as [|node ns IH]; simpl; intros acc.
  - split; [auto | intros [?|(? & ? & [] & _)]; assumption].
  - rewrite IH, scan_node_wildcard. split.
    + intros [[?|(e & ? & ?)]|(n & e & ? & ?)]; eauto 8.
    + intros [?|(n & e & [<-|?] & ?)]; eauto 8.
Qed.

Lemma scan_missing ns m : forall acc,
  In m (snd (fold_left (scan_node graph_nodes) ns acc)) <->
  In m (snd acc) \/
  exists node e,
    In node ns /\ In e (JsMap.entries (DependencyNode.dependencies node)) /\
    DependencySpec.type (snd e) = PEER /\
    JsMap.has graph_nodes (fst e) = false /\
    m = mk_missing (DependencyNode.name node) (fst e).
Proof.
  induction ns as [|node ns IH]; simpl; intros acc.
  - split; [auto | intros [?|(? & ? & [] & _)]; assumption].
  - rewrite IH, scan_node_missing. split.
    + intros [[?|(e & ? & ?)]|(n & e & ? & ?)]; eauto 8.
    + intros [?|(n & e & [<-|?] & ?)]; eauto 8.
Qed.

End Scan.

Lemma detect_cycles_reports_found g :
  exists found,
    DependencyGraph.result_of DependencyGraph.detect_cycles_by_type g
    = Some found.
Proof.
  destruct (find_cycles_in_total (DependencyGraph.nodes g)
              (fun spec => negb (DependencyType_eqb (DependencySpec.type spec) DEV)))
    as (p & Hp).
  destruct (find_cycles_in_total (DependencyGraph.nodes g)
              (fun spec => DependencyType_eqb (DependencySpec.type spec) DEV))
    as (d & Hd).
  exists (DependencyGraph.mk_cycles p d).
  unfold DependencyGraph.result_of, DependencyGraph.detect_cycles_by_type,
    DependencyGraph.find_cycles, DependencyGraph.bind, DependencyGraph.read,
    DependencyGraph.ret.
  simpl. now rewrite Hp, Hd.
Qed.

(** ** The scenarios of the specification *)

Section Scenarios.
Import DependencyGraph DependencyGraphBuilder.

Example scenario_A_build :
  build_from_repos Scenario.A = Some Scenario.graph_A.
Proof. reflexivity. Qed.

Example scenario_A_order :
  result_of compute_publishing_order Scenario.graph_A = Return ["b"; "a"].
Proof. reflexivity. Qed.

Example scenario_B_order :
  result_of compute_publishing_order Scenario.graph_B = Return ["a"; "b"].
Proof. reflexivity. Qed.

Example scenario_B_cycles :
  result_of detect_cycles_by_type Scenario.graph_B =
  Some (mk_cycles [] [["a"; "b"; "a"]]).
Proof. reflexivity. Qed.

Example scenario_C_order :
  result_of (topological_sort true) Scenario.graph_C =
  Throw (mk_Error (Sort.mk_error ["a"; "b"])).
Proof. reflexivity. Qed.

Example scenario_C_cycles :
  result_of detect_cycles_by_type Scenario.graph_C =
  Some (mk_cycles [["a"; "b"; "a"]] []).
Proof. reflexivity. Qed.

Example scenario_D_analysis :
  result_of analyze Scenario.graph_D =
  Some (mk_analysis [] [] [mk_wildcard "a" "ext" "*"] [mk_missing "a" "ext"]).
Proof. reflexivity. Qed.

Example scenario_D_dependents :
  result_of (get_dependents "ext") Scenario.graph_D = JsSet.empty.
Proof. reflexivity. Qed.

Example scenario_all_sections :
  option_map
    (fun g => result_of (get_dependencies "x") g)
    (build_from_repos Scenario.all_sections) =
  Some [("y", DependencySpec.mk PEER "^2.0.0" None)].
Proof. reflexivity. Qed.

End Scenarios.

(** * The properties of the specification *)

Section Properties.
Import DependencyGraph DependencyGraphBuilder Notions.

(** C1: on a graph without a cycle of non-dev edges (edges of type prod or
    peer whose target is a graph node), [topological_sort(true)] returns a
    permutation of all node names in which the dependency of every kept edge
    comes before its dependent. *)
Theorem topological_sort_orders_dependencies repos g :
  build_from_repos repos = Some g ->
  acyclic g true ->
  exists order,
    result_of (topological_sort true) g = Return order /\
    Permutation order (JsMap.keys (nodes g)) /\
    forall dependency dependent,
      depends g true dependency dependent ->
      before order dependency dependent.
Proof.
  intros Hbuild Hacyc.
  apply topological_sort_returns; [|assumption].
  eapply build_from_repos_wf; eassumption.
Qed.

Lemma topological_sort_orders_dependencies_witness :
  exists order,
    result_of (topological_sort true) Scenario.graph_A = Return order /\
    Permutation order (JsMap.keys (nodes Scenario.graph_A)) /\
    before order "b" "a".
Proof.
  assert (Hb : build_from_repos Scenario.A = Some Scenario.graph_A)
    by reflexivity.
  assert (Hacyc : acyclic Scenario.graph_A true).
  { apply (topological_sort_return_acyclic _ true ["b"; "a"]);
      [apply (build_from_repos_wf Scenario.A); exact Hb | reflexivity]. }
  destruct (topological_sort_orders_dependencies _ _ Hb Hacyc)
    as (order & Hr & Hp & Ho).
  exists order. repeat split; try assumption.
  apply Ho. eexists. eexists. repeat split; try reflexivity. discriminate.
Defined.

(** C3: [topological_sort(exclude_dev)] throws exactly when the graph of
    the kept edges has a cycle, and the error that it throws carries the
    names that stay unresolved: the nodes on a cycle and the nodes that
    depend on them. *)
Theorem topological_sort_throws_iff_cycle repos g exclude_dev :
  build_from_repos repos = Some g ->
  ((exists e, result_of (topological_sort exclude_dev) g = Throw e) <->
   ~ acyclic g exclude_dev) /\
  (forall e,
     result_of (topological_sort exclude_dev) g = Throw e ->
     Sort.unresolved (message e) <> [] /\
     forall u, In u (Sort.unresolved (message e)) <->
               below_cycle (depends g exclude_dev) u).
Proof.
  intros Hbuild. pose proof (build_from_repos_wf repos g Hbuild) as Hwf.
  split.
  - split.
    + intros (e & He) Hacyc.
      destruct (topological_sort_returns g exclude_dev Hwf Hacyc)
        as (order & Ho & _).
      congruence.
    + intros Hcyc.
      destruct (result_of (topological_sort exclude_dev) g) as [order|e] eqn:E.
      * exfalso. apply Hcyc.
        eapply topological_sort_return_acyclic; eassumption.
      * eauto.
  - intros e He. now apply topological_sort_throws.
Qed.

Lemma topological_sort_throws_iff_cycle_witness :
  (exists e, result_of (topological_sort true) Scenario.graph_C = Throw e) /\
  ~ acyclic Scenario.graph_C true.
Proof.
  assert (Hb : build_from_repos Scenario.C = Some Scenario.graph_C)
    by reflexivity.
  destruct (topological_sort_throws_iff_cycle _ _ true Hb) as (Hiff & _).
  assert (He : exists e,
             result_of (topological_sort true) Scenario.graph_C = Throw e)
    by (eexists; reflexivity).
  split; [exact He | apply Hiff, He].
Defined.

(** C4: on a graph that has a cycle and whose cycles are made of dev edges
    only, [topological_sort(true)] returns an ordering of all node names and
    [topological_sort(false)] throws; [compute_publishing_order] is
    [topological_sort(true)], so such cycles never block the publishing
    order. *)
Theorem dev_cycles_do_not_block_publishing repos g :
  build_from_repos repos = Some g ->
  ~ acyclic g false ->
  cycles_are_dev_only g ->
  (exists order,
     result_of (topological_sort true) g = Return order /\
     Permutation order (JsMap.keys (nodes g))) /\
  (exists e, result_of (topological_sort false) g = Throw e) /\
  result_of compute_publishing_order g = result_of (topological_sort true) g.
Proof.
  intros Hbuild Hcyc Hdev.
  pose proof (build_from_repos_wf repos g Hbuild) as Hwf.
  split; [|split].
  - destruct (topological_sort_returns g true Hwf (dev_only_acyclic g Hdev))
      as (order & Ho & Hp & _).
    eauto.
  - destruct (result_of (topological_sort false) g) as [order|e] eqn:E.
    + exfalso. apply Hcyc.
      eapply topological_sort_return_acyclic; eassumption.
    + eauto.
  - reflexivity.
Qed.

Lemma dev_cycles_do_not_block_publishing_witness :
  result_of compute_publishing_order Scenario.graph_B = Return ["a"; "b"] /\
  exists e, result_of (topological_sort false) Scenario.graph_B = Throw e.
Proof.
  assert (Hb : build_from_repos Scenario.B = Some Scenario.graph_B)
    by reflexivity.
  assert (Hcyc : ~ acyclic Scenario.graph_B false).
  { intros Hacyc.
    destruct (topological_sort_returns _ false
                (build_from_repos_wf _ _ Hb) Hacyc) as (order & Ho & _).
    discriminate Ho. }
  assert (Hdev : cycles_are_dev_only Scenario.graph_B).
  { apply all_dev_cycles_are_dev_only. reflexivity. }
  destruct (dev_cycles_do_not_block_publishing _ _ Hb Hcyc Hdev)
    as (_ & He & _).
  split; [reflexivity | exact He].
Defined.

(** C2, as the code has it: a node records one spec for each dependency
    name; the spec comes from [peerDependencies] when the name is listed
    there, otherwise from [dependencies], otherwise from [devDependencies].
    So production and peer entries both override a dev entry, and a peer
    entry overrides a production entry. *)
Theorem merge_prefers_peer_then_prod_then_dev repos g n node :
  build_from_repos repos = Some g ->
  JsMap.get (nodes g) n = Some node ->
  exists repo,
    In repo repos /\
    Library.name (LocalRepo.library repo) = n /\
    NoDup (JsMap.keys (DependencyNode.dependencies node)) /\
    let pj := Library.package_json (LocalRepo.library repo) in
    unique_keys (PackageJson.dependencies pj) ->
    unique_keys (PackageJson.peerDependencies pj) ->
    forall y,
      JsMap.get (DependencyNode.dependencies node) y =
      match listed (PackageJson.peerDependencies pj) y with
      | Some range => Some (DependencySpec.mk PEER range None)
      | None =>
          match listed (PackageJson.dependencies pj) y with
          | Some range => Some (DependencySpec.mk PROD range None)
          | None =>
              match listed (PackageJson.devDependencies pj) y with
              | Some range => Some (DependencySpec.mk DEV range None)
              | None => None
              end
          end
      end.
Proof.
  intros Hbuild Hnode.
  pose proof (build_from_repos_wf repos g Hbuild) as Hwf.
  destruct (build_from_repos_origin repos g n node Hbuild Hnode)
    as (repo & Hin & Hdecl).
  exists repo. split; [assumption|].
  pose proof (wf_names Hwf n node (get_In _ _ _ _ Hnode)) as Hname.
  split; [|split].
  - rewrite <- Hname. symmetry. apply (declared_name _ _ Hdecl).
  - eapply (wf_deps Hwf), get_In, Hnode.
  - intros pj Hd Hp y.
    rewrite (declared_dependencies _ _ Hdecl). simpl.
    now apply get_merge_dependencies.
Qed.

Lemma merge_prefers_peer_then_prod_then_dev_witness :
  exists node,
    JsMap.get (nodes Scenario.graph_prod_and_peer) "x" = Some node /\
    JsMap.get (DependencyNode.dependencies node) "y" =
    Some (DependencySpec.mk PEER "^2.0.0" None).
Proof.
  assert (Hb : build_from_repos Scenario.prod_and_peer
               = Some Scenario.graph_prod_and_peer) by reflexivity.
  eexists. split; [reflexivity|].
  destruct (merge_prefers_peer_then_prod_then_dev _ _ "x" _ Hb eq_refl)
    as (repo & Hin & Hname & _ & Hget).
  destruct Hin as [<-|[<-|[]]]; [|discriminate Hname].
  apply Hget; repeat constructor; simpl; tauto.
Defined.

(** C2, as the specification states it, fails: [x] lists [y] under
    [dependencies] and under [peerDependencies]; the statement expects type
    prod with the production range, the node records type peer with the peer
    range. *)
Lemma merge_prod_and_peer_counterexample :
  exists g node,
    build_from_repos Scenario.prod_and_peer = Some g /\
    JsMap.get (nodes g) "x" = Some node /\
    JsMap.get (DependencyNode.dependencies node) "y" =
    Some (DependencySpec.mk PEER "^2.0.0" None) /\
    JsMap.get (DependencyNode.dependencies node) "y" <>
    Some (DependencySpec.mk PROD "^1.0.0" None).
Proof.
  eexists. eexists. split; [reflexivity|]. split; [reflexivity|].
  split; [reflexivity | discriminate].
Qed.

(** C5: after [init_from_repos], [edges[n]] of a node [n] holds exactly the
    names of the nodes whose dependency mapping contains [n], and so does
    the node's [dependents]; every node keeps the whole merged mapping of
    its repo, external names included; a name without a node has no entry in
    [edges] and no node to carry dependents, and [get_dependents] of it is
    the empty set. *)
Theorem edges_are_the_internal_dependents repos :
  exists g,
    build_from_repos repos = Some g /\
    (forall n,
       JsMap.has (nodes g) n = true ->
       exists tos,
         JsMap.get (edges g) n = Some tos /\
         dependents_of g n = tos /\
         forall m,
           In m tos <->
           exists node,
             JsMap.get (nodes g) m = Some node /\
             JsMap.has (DependencyNode.dependencies node) n = true) /\
    (forall k node,
       JsMap.get (nodes g) k = Some node ->
       exists repo,
         In repo repos /\
         DependencyNode.dependencies node =
         merge_dependencies (Library.package_json (LocalRepo.library repo))) /\
    (forall ext,
       JsMap.has (nodes g) ext = false ->
       JsMap.get (edges g) ext = None /\
       result_of (get_node ext) g = None /\
       result_of (get_dependents ext) g = JsSet.empty).
Proof.
  destruct (build_from_repos_steps repos) as (g & Hbuild & _).
  exists g. split; [assumption|].
  pose proof (build_from_repos_wf repos g Hbuild) as Hwf.
  assert (Hedges : forall k, JsMap.has (edges g) k = JsMap.has (nodes g) k).
  { intros k. destruct (JsMap.has (nodes g) k) eqn:E.
    - apply has_In_keys. rewrite (wf_edges Hwf). now apply has_In_keys.
    - apply has_false_not_In. rewrite (wf_edges Hwf).
      now apply has_false_not_In. }
  split; [|split].
  - intros n Hn.
    destruct (JsMap.get (edges g) n) as [tos|] eqn:He.
    2:{ apply get_None_has in He. rewrite Hedges in He. congruence. }
    exists tos.
    assert (Hof : edges_of g n = tos) by (unfold edges_of; now rewrite He).
    split; [reflexivity|]. split.
    + rewrite <- Hof. now apply (build_from_repos_dependents repos).
    + intros m. rewrite <- Hof, (build_from_repos_edges repos g n m Hbuild).
      tauto.
  - intros k node Hnode.
    destruct (build_from_repos_origin repos g k node Hbuild Hnode)
      as (repo & Hin & Hdecl).
    exists repo. split; [assumption|].
    apply (declared_dependencies _ _ Hdecl).
  - intros ext Hext.
    assert (He : JsMap.get (edges g) ext = None).
    { apply get_None_has. now rewrite Hedges. }
    split; [assumption|]. split.
    + now apply get_None_has.
    + unfold result_of, get_dependents, bind, read, ret. simpl. now rewrite He.
Qed.

(** C6: [detect_cycles_by_type] returns, and in each of its two lists no two
    entries are cycles through the same set of nodes, nor cycles with the
    same dedupe key (the sorted names joined by commas). *)
Theorem detect_cycles_reports_each_node_set_once g :
  exists found,
    result_of detect_cycles_by_type g = Some found /\
    (forall i j c1 c2,
       nth_error (DependencyGraph.production_cycles found) i = Some c1 ->
       nth_error (DependencyGraph.production_cycles found) j = Some c2 ->
       same_node_set c1 c2 \/ cycle_key c1 = cycle_key c2 -> i = j) /\
    (forall i j c1 c2,
       nth_error (DependencyGraph.dev_cycles found) i = Some c1 ->
       nth_error (DependencyGraph.dev_cycles found) j = Some c2 ->
       same_node_set c1 c2 \/ cycle_key c1 = cycle_key c2 -> i = j).
Proof.
  set (prod := fun spec =>
                 negb (DependencyType_eqb (DependencySpec.type spec) DEV)).
  set (dev := fun spec => DependencyType_eqb (DependencySpec.type spec) DEV).
  destruct (find_cycles_in_total (nodes g) prod) as (p & Hp).
  destruct (find_cycles_in_total (nodes g) dev) as (d & Hd).
  exists (mk_cycles p d). split; [|split].
  - unfold result_of, detect_cycles_by_type, find_cycles, bind, read, ret.
    simpl. fold prod. fold dev. now rewrite Hp, Hd.
  - simpl. now apply (find_cycles_in_distinct (nodes g) prod).
  - simpl. now apply (find_cycles_in_distinct (nodes g) dev).
Qed.

(** C7: [analyze] returns; its [wildcard_deps] are exactly the (node,
    dependency) pairs whose spec has the version ["*"], of any type, and its
    [missing_peers] exactly the pairs whose spec has type peer and whose
    dependency name is not a node of the graph. *)
Theorem analyze_flags_wildcards_and_missing_peers g :
  exists report,
    result_of analyze g = Some report /\
    (forall w,
       In w (wildcard_deps report) <->
       exists node dep_name spec,
         In node (JsMap.values (nodes g)) /\
         In (dep_name, spec)
            (JsMap.entries (DependencyNode.dependencies node)) /\
         DependencySpec.version spec = "*" /\
         w = mk_wildcard (DependencyNode.name node) dep_name "*") /\
    (forall m,
       In m (missing_peers report) <->
       exists node dep_name spec,
         In node (JsMap.values (nodes g)) /\
         In (dep_name, spec)
            (JsMap.entries (DependencyNode.dependencies node)) /\
         DependencySpec.type spec = PEER /\
         JsMap.has (nodes g) dep_name = false /\
         m = mk_missing (DependencyNode.name node) dep_name).
Proof.
  destruct (detect_cycles_reports_found g) as (found & Hfound).
  eexists. split; [|split].
  - unfold result_of, analyze, bind, read, ret.
    unfold result_of in Hfound.
    pose proof (read_only_detect_cycles_by_type g) as Hsame.
    unfold state_after in Hsame.
    destruct (detect_cycles_by_type g) as [r g']. simpl in *. subst.
    reflexivity.
  - intros w. simpl. rewrite scan_wildcard. simpl. split.
    + intros [[]|(node & [d spec] & Hn & He & Hv & ->)].
      exists node, d, spec. simpl in *. rewrite Hv. auto.
    + intros (node & d & spec & Hn & He & Hv & ->). right.
      exists node, (d, spec). simpl. rewrite Hv. auto.
  - intros m. simpl. rewrite scan_missing. simpl. split.
    + intros [[]|(node & [d spec] & Hn & He & Ht & Hh & ->)].
      exists node, d, spec. auto.
    + intros (node & d & spec & Hn & He & Ht & Hh & ->). right.
      exists node, (d, spec). auto.
Qed.

(** C8: for a name that is not in the graph, [get_dependents] returns the
    empty set, [get_dependencies] the empty mapping and [get_node]
    [undefined]; the three are values, not errors. *)
Theorem unknown_names_give_empty_results repos g name :
  build_from_repos repos = Some g ->
  JsMap.has (nodes g) name = false ->
  result_of (get_dependents name) g = JsSet.empty /\
  result_of (get_dependencies name) g = JsMap.empty /\
  result_of (get_node name) g = None.
Proof.
  intros Hbuild Hname.
  pose proof (build_from_repos_wf repos g Hbuild) as Hwf.
  assert (Hn : JsMap.get (nodes g) name = None) by now apply get_None_has.
  assert (He : JsMap.get (edges g) name = None).
  { apply get_None_has, has_false_not_In. rewrite (wf_edges Hwf).
    now apply has_false_not_In. }
  unfold result_of, get_dependents, get_dependencies, get_node, bind, read, ret.
  simpl. rewrite Hn, He. auto.
Qed.

Lemma unknown_names_give_empty_results_witness :
  result_of (get_dependents "ext") Scenario.graph_D = JsSet.empty /\
  result_of (get_dependencies "ext") Scenario.graph_D = JsMap.empty /\
  result_of (get_node "ext") Scenario.graph_D = None.
Proof.
  apply (unknown_names_give_empty_results Scenario.D); reflexivity.
Defined.

(** C9: [topological_sort], [detect_cycles_by_type], [analyze] and [toJSON]
    leave the graph as it was: [nodes], with every field of every node, and
    [edges] are the same after the call. *)
Theorem queries_leave_the_graph_unchanged g exclude_dev :
  state_after (topological_sort exclude_dev) g = g /\
  state_after detect_cycles_by_type g = g /\
  state_after analyze g = g /\
  state_after toJSON g = g.
Proof.
  split; [apply read_only_topological_sort|].
  split; [apply read_only_detect_cycles_by_type|].
  split; [apply read_only_analyze | apply read_only_toJSON].
Qed.

(** C10: a repo whose manifest has no version, or the empty string as
    version, still gets its node, and the node's version is ["0.0.0"].  The
    node in the graph is the one of the last repo with that name, which is
    this repo when names are unique. *)
Theorem missing_version_defaults_to_zero l1 repo l2 :
  let manifest := Library.package_json (LocalRepo.library repo) in
  PackageJson.version manifest = None \/
  PackageJson.version manifest = Some "" ->
  (forall later,
     In later l2 ->
     Library.name (LocalRepo.library later)
     <> Library.name (LocalRepo.library repo)) ->
  exists g node,
    build_from_repos (l1 ++ repo :: l2) = Some g /\
    result_of (get_node (Library.name (LocalRepo.library repo))) g
    = Some node /\
    DependencyNode.version node = "0.0.0".
Proof.
  intros manifest Hversion Hlast.
  destruct (build_from_repos_steps (l1 ++ repo :: l2)) as (g & Hbuild & Hstep).
  pose proof (first_pass_last l1 repo l2 DependencyGraph.new Hlast) as Hfirst.
  destruct (pass_step_node_back _ _ _ _ _ Hstep Hfirst) as (node & Hnode & Hdecl).
  exists g, node. split; [assumption|]. split; [exact Hnode|].
  rewrite <- (declared_version _ _ Hdecl). simpl.
  fold manifest. now destruct Hversion as [-> | ->].
Qed.

Lemma missing_version_defaults_to_zero_witness :
  exists g node,
    build_from_repos Scenario.A = Some g /\
    result_of (get_node "b") g = Some node /\
    DependencyNode.version node = "0.0.0".
Proof.
  apply (missing_version_defaults_to_zero
           [Scenario.package "a" (Some "1.0.0") (Some [("b", "^1.0.0")])
              None None]
           (Scenario.package "b" None None None None) []).
  - left. reflexivity.
  - intros later [].
Defined.

End Properties.


(** * Further properties of the code *)

(** ** Cycle detection: the recorded cycles are cycles of the graph *)

Section DfsSound.
Import DependencyGraph Notions.

Variable this_nodes : JsMap.t DependencyNode.t.
Variable include : DependencySpec.t -> bool.

Local Abbreviation R := (follows this_nodes include).

Lemma chain_tail (Q : relation string) x l : chain Q (x :: l) -> chain Q l.
Proof. destruct l; simpl; tauto. Qed.

Lemma chain_skipn (Q : relation string) i : forall l,
  chain Q l -> chain Q (skipn i l).
Proof.
  induction i as [|i IH]; intros l H; simpl; [assumption|].
  destruct l; [assumption|]. apply IH. eapply chain_tail; eassumption.
Qed.

Lemma chain_snoc (Q : relation string) l : forall x y,
  chain Q (l ++ [x]) -> Q x y -> chain Q (l ++ [x; y]).
Proof.
  induction l as [|a l IH]; intros x y H Hxy.
  - simpl. auto.
  - destruct l as [|b l].
    + simpl in *. tauto.
    + change (Q a b /\ chain Q ((b :: l) ++ [x; y])).
      change (Q a b /\ chain Q ((b :: l) ++ [x])) in H.
      split; [apply H | apply IH; tauto].
Qed.

Lemma skipn_snoc (A : Type) i : forall (l : list A) x y rest,
  skipn i (l ++ [x]) = y :: rest -> exists s, y :: rest = s ++ [x].
Proof.
  induction i as [|i IH]; intros l x y rest H.
  - simpl in H. exists l. now rewrite H.
  - destruct l as [|a l]; simpl in H.
    + destruct i; discriminate.
    + eapply IH; eassumption.
Qed.

Lemma record_cycle_sound path name dep_name st :
  chain R (path ++ [name]) -> R name dep_name ->
  In dep_name (path ++ [name]) ->
  (forall c, In c (cycles st) -> closed_walk R c) ->
  forall c, In c (cycles (record_cycle (path ++ [name]) dep_name st)) ->
            closed_walk R c.
Proof.
  intros Hchain Hstep Hin Hsound c. unfold record_cycle.
  destruct (indexOf_In (path ++ [name]) dep_name Hin) as (i & rest & -> & Hskip).
  simpl slice. rewrite Hskip.
  destruct (existsb _ (cycles st)); simpl; [apply Hsound|].
  rewrite in_app_iff. intros [Hc|[<-|[]]]; [now apply Hsound|].
  destruct (skipn_snoc _ i path name dep_name rest Hskip) as (s & Hs).
  change (closed_walk R ((dep_name :: rest) ++ [dep_name])).
  split; [|split].
  - rewrite Hs, <- app_assoc. simpl. apply chain_snoc; [|assumption].
    rewrite <- Hs, <- Hskip. now apply chain_skipn.
  - rewrite length_app. simpl. lia.
  - simpl hd. now rewrite last_last.
Qed.

Section Loop.

Variable visit : string -> list string -> DfsState -> option DfsState.
Hypothesis visit_ok : forall name path st st',
  visit name path st = Some st' ->
  dfs_invariant st -> ~ In name (visited st) ->
  subseq path (visited st) -> incl (rec_stack st) path ->
  dfs_invariant st' /\
  (exists ext, visited st' = visited st ++ ext) /\
  incl (rec_stack st') (rec_stack st).
Hypothesis visit_sound : forall name path st st',
  visit name path st = Some st' ->
  dfs_invariant st -> ~ In name (visited st) ->
  subseq path (visited st) -> incl (rec_stack st) path ->
  chain R (path ++ [name]) ->
  (forall c, In c (cycles st) -> closed_walk R c) ->
  forall c, In c (cycles st') -> closed_walk R c.

Variable name : string.
Variable node : DependencyNode.t.
Variable path : list string.
Hypothesis name_node : JsMap.get this_nodes name = Some node.
Hypothesis path_chain : chain R (path ++ [name]).

Lemma loop_sound deps : forall st st',
  incl deps (JsMap.entries (DependencyNode.dependencies node)) ->
  for_each (visit_dep visit this_nodes include (path ++ [name])) deps st
  = Some st' ->
  dfs_invariant st -> subseq (path ++ [name]) (visited st) ->
  incl (rec_stack st) (path ++ [name]) ->
  (forall c, In c (cycles st) -> closed_walk R c) ->
  forall c, In c (cycles st') -> closed_walk R c.
Proof.
  induction deps as [|e deps IH]; simpl; intros st st' Hdeps H Hinv Hpath Hstack Hsound.
  - now injection H as <-.
  - destruct (visit_dep visit this_nodes include (path ++ [name]) st e)
      as [st1|] eqn:E; [|discriminate].
    destruct (visit_dep_ok this_nodes include visit visit_ok _ _ _ _ E
                Hinv Hpath Hstack) as (Hinv1 & (ext1 & Hext1) & Hstack1).
    apply (IH st1 st'); try assumption.
    + intros x Hx. apply Hdeps. now right.
    + rewrite Hext1. now apply subseq_app_r.
    + eapply incl_tran; eassumption.
    + unfold visit_dep in E.
      destruct (include (snd e)) eqn:Hinc; simpl in E;
        [|now injection E as <-].
      destruct (JsMap.has this_nodes (fst e)) eqn:Hhas;
        [|now injection E as <-].
      assert (Hstep : R name (fst e)).
      { exists node, (snd e). split; [assumption|]. split; [|auto].
        apply Hdeps. left. now destruct e. }
      destruct (JsSet.has (visited st) (fst e)) eqn:Hv; simpl in E.
      * destruct (JsSet.has (rec_stack st) (fst e)) eqn:Hr;
          [|now injection E as <-].
        injection E as <-. apply JsSet_has_In in Hr.
        apply record_cycle_sound; auto.
      * apply JsSet_has_false in Hv.
        apply (visit_sound _ _ _ _ E); try assumption.
        rewrite <- app_assoc. simpl. now apply chain_snoc.
Qed.

End Loop.

Lemma dfs_unfold depth name path st st' :
  dfs (S depth) this_nodes include name path st = Some st' ->
  let st1 := {| cycles := cycles st;
                visited := JsSet.add (visited st) name;
                rec_stack := JsSet.add (rec_stack st) name |} in
  exists st2,
    match JsMap.get this_nodes name with
    | Some node =>
        for_each
          (visit_dep (dfs depth this_nodes include)
                     this_nodes include (path ++ [name]))
          (JsMap.entries (DependencyNode.dependencies node)) st1
    | None => Some st1
    end = Some st2 /\
    st' = {| cycles := cycles st2; visited := visited st2;
             rec_stack := JsSet.delete (rec_stack st2) name |}.
Proof.
  simpl. intros H.
  destruct (match JsMap.get this_nodes name with
            | Some node => _ | None => _ end) as [st2|]; [|discriminate].
  injection H as <-. eauto.
Qed.

(** What holds of the state with which the loop of [dfs] starts. *)
Lemma dfs_enter name path st :
  dfs_invariant st -> ~ In name (visited st) ->
  subseq path (visited st) -> incl (rec_stack st) path ->
  let st1 := {| cycles := cycles st;
                visited := JsSet.add (visited st) name;
                rec_stack := JsSet.add (rec_stack st) name |} in
  visited st1 = visited st ++ [name] /\
  dfs_invariant st1 /\
  subseq (path ++ [name]) (visited st1) /\
  incl (rec_stack st1) (path ++ [name]).
Proof.
  intros Hinv Hnew Hpath Hstack st1.
  assert (Hv1 : visited st1 = visited st ++ [name]).
  { simpl. unfold JsSet.add. apply JsSet_has_false in Hnew. now rewrite Hnew. }
  split; [assumption|]. split; [|split].
  - constructor.
    + rewrite Hv1.
      apply NoDup_app; [apply Hinv | repeat constructor; simpl; tauto |].
      intros x Hx [<-|[]]. contradiction.
    + apply Hinv.
    + intros c Hc. destruct (di_cycles Hinv c Hc) as (s & Hs & Hc' & Hsub).
      exists s. split; [assumption|]. split; [assumption|].
      rewrite Hv1. now apply subseq_app_r.
  - rewrite Hv1. now apply subseq_snoc.
  - intros x Hx. simpl in Hx. apply JsSet_In_add in Hx.
    apply in_app_iff. destruct Hx as [Hx| ->]; [left; auto | right; now left].
Qed.

Lemma dfs_sound depth : forall name path st st',
  dfs depth this_nodes include name path st = Some st' ->
  dfs_invariant st -> ~ In name (visited st) ->
  subseq path (visited st) -> incl (rec_stack st) path ->
  chain R (path ++ [name]) ->
  (forall c, In c (cycles st) -> closed_walk R c) ->
  forall c, In c (cycles st') -> closed_walk R c.
Proof.
  induction depth as [|depth IH];
    intros name path st st' H Hinv Hnew Hpath Hstack Hchain Hsound.
  - discriminate.
  - destruct (dfs_unfold _ _ _ _ _ H) as (st2 & Hloop & ->). simpl.
    destruct (dfs_enter name path st Hinv Hnew Hpath Hstack)
      as (_ & Hinv1 & Hpath1 & Hstack1).
    destruct (JsMap.get this_nodes name) as [node|] eqn:Hnode.
    + eapply (loop_sound (dfs depth this_nodes include)
                (dfs_ok this_nodes include depth) IH name node path
                Hnode Hchain _ _ st2 (incl_refl _) Hloop Hinv1 Hpath1 Hstack1).
      exact Hsound.
    + now injection Hloop as <-.
Qed.

Lemma roots_sound depth names : forall st st',
  for_each (visit_root depth this_nodes include) names st = Some st' ->
  dfs_invariant st -> rec_stack st = [] ->
  (forall c, In c (cycles st) -> closed_walk R c) ->
  forall c, In c (cycles st') -> closed_walk R c.
Proof.
  induction names as [|name names IH]; simpl; intros st st' H Hinv Hstack Hsound.
  - now injection H as <-.
  - destruct (visit_root depth this_nodes include st name) as [st1|] eqn:E;
      [|discriminate].
    assert (E1 : for_each (visit_root depth this_nodes include) [name] st
                 = Some st1) by (simpl; now rewrite E).
    destruct (roots_ok this_nodes include depth [name] st st1 E1 Hinv Hstack)
      as (Hinv1 & Hstack1).
    apply (IH st1 st' H Hinv1 Hstack1).
    unfold visit_root in E.
    destruct (JsSet.has (visited st) name) eqn:Hv; simpl in E.
    + now injection E as <-.
    + apply JsSet_has_false in Hv.
      eapply dfs_sound; try eassumption.
      * apply subseq_nil_l.
      * rewrite Hstack. apply incl_refl.
      * simpl. exact I.
Qed.

Lemma start_invariant :
  dfs_invariant {| cycles := []; visited := JsSet.empty;
                   rec_stack := JsSet.empty |}.
Proof. constructor; simpl; [constructor | constructor | intros ? []]. Qed.

(** A list that closes a run without repetition by the run's first
    element. *)
Lemma find_cycles_in_shape found c :
  find_cycles_in this_nodes include = Some found -> In c found ->
  exists s, s <> [] /\ NoDup s /\ c = s ++ [hd "" s].
Proof.
  unfold find_cycles_in. intros H Hc.
  destruct (for_each _ (JsMap.keys this_nodes) _) as [st|] eqn:E;
    [|discriminate].
  injection H as <-.
  destruct (roots_ok _ _ _ _ _ _ E start_invariant eq_refl) as (Hinv & _).
  destruct (di_cycles Hinv c Hc) as (s & Hs & -> & Hsub).
  exists s. split; [assumption|]. split; [|reflexivity].
  clear Hc Hs. pose proof (di_visited Hinv) as Hnd. revert Hnd.
  induction Hsub as [|x s l Hsub IH|x s l Hsub IH]; intros Hnd.
  - constructor.
  - inversion Hnd; auto.
  - inversion Hnd as [|? ? Hnot Hnd']; subst. constructor; [|auto].
    intros Hx. apply Hnot. eapply subseq_In; eassumption.
Qed.

Lemma find_cycles_in_sound found c :
  find_cycles_in this_nodes include = Some found -> In c found ->
  closed_walk R c.
Proof.
  unfold find_cycles_in. intros H Hc.
  destruct (for_each _ (JsMap.keys this_nodes) _) as [st|] eqn:E;
    [|discriminate].
  injection H as <-.
  eapply roots_sound; try eassumption;
    [apply start_invariant | reflexivity | intros ? []].
Qed.

End DfsSound.

(** ** Cycle detection: a search that records nothing saw no cycle *)

Section DfsComplete.
Import DependencyGraph Notions.

Variable this_nodes : JsMap.t DependencyNode.t.
Variable include : DependencySpec.t -> bool.

Local Abbreviation R := (follows this_nodes include).

Lemma record_cycle_records path dep_name st :
  cycles (record_cycle path dep_name st) <> [].
Proof.
  unfold record_cycle.
  destruct (existsb _ (cycles st)) eqn:E; simpl.
  - destruct (cycles st); [discriminate E | discriminate].
  - intros H. apply app_eq_nil in H. destruct H as [_ H]. discriminate H.
Qed.

Lemma closed_reach st x z :
  search_closed R st -> finished st x ->
  clos_refl_trans string R x z -> finished st z.
Proof.
  intros Hc Hx H. apply clos_rt_rt1n in H.
  induction H as [|x y z Hxy _ IH]; [assumption|].
  apply IH. eapply (sc_closed Hc); eassumption.
Qed.

Section Loop.

Variable visit : string -> list string -> DfsState -> option DfsState.
Hypothesis visit_ok : forall name path st st',
  visit name path st = Some st' ->
  dfs_invariant st -> ~ In name (visited st) ->
  subseq path (visited st) -> incl (rec_stack st) path ->
  dfs_invariant st' /\
  (exists ext, visited st' = visited st ++ ext) /\
  incl (rec_stack st') (rec_stack st).
Hypothesis visit_complete : forall name path st st',
  visit name path st = Some st' ->
  dfs_invariant st -> ~ In name (visited st) ->
  subseq path (visited st) -> incl (rec_stack st) path ->
  (cycles st' = [] -> cycles st = []) /\
  (cycles st' = [] -> search_closed R st ->
   search_closed R st' /\ finished st' name /\
   forall x, finished st x -> finished st' x).

Lemma visit_dep_complete path st e st' :
  visit_dep visit this_nodes include path st e = Some st' ->
  dfs_invariant st -> subseq path (visited st) -> incl (rec_stack st) path ->
  (cycles st' = [] -> cycles st = []) /\
  (cycles st' = [] -> search_closed R st ->
   search_closed R st' /\
   (include (snd e) = true -> JsMap.has this_nodes (fst e) = true ->
    finished st' (fst e)) /\
   forall x, finished st x -> finished st' x).
Proof.
  unfold visit_dep. intros H Hinv Hpath Hstack.
  destruct (include (snd e)) eqn:Hinc; simpl in H.
  2:{ injection H as <-. split; [auto|]. intros _ Hc.
      split; [assumption|]. split; [discriminate | auto]. }
  destruct (JsMap.has this_nodes (fst e)) eqn:Hhas.
  2:{ injection H as <-. split; [auto|]. intros _ Hc.
      split; [assumption|]. split; [discriminate | auto]. }
  destruct (JsSet.has (visited st) (fst e)) eqn:Hv; simpl in H.
  - destruct (JsSet.has (rec_stack st) (fst e)) eqn:Hr.
    + injection H as <-.
      split; intros Hnil; now apply record_cycle_records in Hnil.
    + injection H as <-. split; [auto|]. intros _ Hc.
      split; [assumption|]. split; [|auto]. intros _ _. split.
      * now apply JsSet_has_In.
      * now apply JsSet_has_false.
  - apply JsSet_has_false in Hv.
    destruct (visit_complete _ _ _ _ H Hinv Hv Hpath Hstack) as (Hmono & Hmain).
    split; [assumption|]. intros Hnil Hc.
    destruct (Hmain Hnil Hc) as (Hc' & Hfin & Hkeep). auto.
Qed.

Lemma loop_complete path deps : forall st st',
  for_each (visit_dep visit this_nodes include path) deps st = Some st' ->
  dfs_invariant st -> subseq path (visited st) -> incl (rec_stack st) path ->
  (cycles st' = [] -> cycles st = []) /\
  (cycles st' = [] -> search_closed R st ->
   search_closed R st' /\
   (forall e, In e deps -> include (snd e) = true ->
              JsMap.has this_nodes (fst e) = true -> finished st' (fst e)) /\
   forall x, finished st x -> finished st' x).
Proof.
  induction deps as [|e deps IH]; simpl; intros st st' H Hinv Hpath Hstack.
  - injection H as <-. split; [auto|]. intros _ Hc.
    split; [assumption|]. split; [intros ? [] | auto].
  - destruct (visit_dep visit this_nodes include path st e) as [st1|] eqn:E;
      [|discriminate].
    destruct (visit_dep_ok this_nodes include visit visit_ok _ _ _ _ E
                Hinv Hpath Hstack) as (Hinv1 & (ext1 & Hext1) & Hstack1).
    destruct (visit_dep_complete _ _ _ _ E Hinv Hpath Hstack)
      as (Hmono1 & Hmain1).
    destruct (IH st1 st' H Hinv1) as (Hmono & Hmain).
    { rewrite Hext1. now apply subseq_app_r. }
    { eapply incl_tran; eassumption. }
    split; [auto|]. intros Hnil Hc.
    destruct (Hmain1 (Hmono Hnil) Hc) as (Hc1 & Hfin1 & Hkeep1).
    destruct (Hmain Hnil Hc1) as (Hc' & Hfin & Hkeep).
    split; [assumption|]. split; [|auto].
    intros e' [<-|He'] Hi Hh; [apply Hkeep; auto | now apply Hfin].
Qed.

End Loop.

Lemma dfs_complete depth : forall name path st st',
  dfs depth this_nodes include name path st = Some st' ->
  dfs_invariant st -> ~ In name (visited st) ->
  subseq path (visited st) -> incl (rec_stack st) path ->
  (cycles st' = [] -> cycles st = []) /\
  (cycles st' = [] -> search_closed R st ->
   search_closed R st' /\ finished st' name /\
   forall x, finished st x -> finished st' x).
Proof.
  induction depth as [|depth IH];
    intros name path st st' H Hinv Hnew Hpath Hstack.
  - discriminate.
  - destruct (dfs_unfold _ _ _ _ _ _ _ H) as (st2 & Hloop & ->).
    destruct (dfs_enter name path st Hinv Hnew Hpath Hstack)
      as (Hv1 & Hinv1 & Hpath1 & Hstack1).
    set (st1 := {| cycles := cycles st;
                   visited := JsSet.add (visited st) name;
                   rec_stack := JsSet.add (rec_stack st) name |}) in *.
    assert (Hold : (exists ext, visited st2 = visited st1 ++ ext) /\
                   incl (rec_stack st2) (rec_stack st1)).
    { destruct (JsMap.get this_nodes name) as [node|].
      - eapply (loop_ok this_nodes include _ (dfs_ok this_nodes include depth));
          eassumption.
      - injection Hloop as <-. split; [|apply incl_refl].
        exists []. now rewrite app_nil_r. }
    destruct Hold as ((ext & Hext) & Hstack2).
    assert (Hloop' :
      (cycles st2 = [] -> cycles st1 = []) /\
      (cycles st2 = [] -> search_closed R st1 ->
       search_closed R st2 /\
       (forall y, R name y -> finished st2 y) /\
       forall x, finished st1 x -> finished st2 x)).
    { destruct (JsMap.get this_nodes name) as [node|] eqn:Hnode.
      - destruct (loop_complete (dfs depth this_nodes include)
                    (dfs_ok this_nodes include depth) IH _ _ _ _
                    Hloop Hinv1 Hpath1 Hstack1) as (Hmono & Hmain).
        split; [assumption|]. intros Hnil Hc.
        destruct (Hmain Hnil Hc) as (Hc2 & Hfin & Hkeep).
        split; [assumption|]. split; [|assumption].
        intros y (node' & spec & Hn' & Hin & Hinc & Hhas).
        rewrite Hnode in Hn'. injection Hn' as <-.
        apply (Hfin (y, spec)); assumption.
      - injection Hloop as <-. split; [auto|]. intros _ Hc.
        split; [assumption|]. split; [|auto].
        intros y (node' & spec & Hn' & _). rewrite Hnode in Hn'. discriminate. }
    destruct Hloop' as (Hmono & Hmain). simpl.
    split; [exact Hmono|]. intros Hnil Hc.
    assert (Hc1 : search_closed R st1).
    { assert (Hsame : forall x, finished st1 x -> finished st x).
      { intros x [Hx Hnx]. rewrite Hv1, in_app_iff in Hx. simpl in Hnx.
        rewrite JsSet_In_add in Hnx. simpl in Hx. split; [|tauto].
        destruct Hx as [Hx|[<-|[]]]; [assumption | tauto]. }
      assert (Hback : forall x, finished st x -> finished st1 x).
      { intros x [Hx Hnx]. split.
        - rewrite Hv1. apply in_app_iff. now left.
        - simpl. rewrite JsSet_In_add. intros [?| ->]; contradiction. }
      constructor.
      - intros x y Hx Hxy. apply Hback.
        eapply (sc_closed Hc); eauto.
      - intros x Hx. apply (sc_acyclic Hc). auto. }
    destruct (Hmain Hnil Hc1) as (Hc2 & Hsucc & Hkeep).
    set (st' := {| cycles := cycles st2; visited := visited st2;
                   rec_stack := JsSet.delete (rec_stack st2) name |}).
    assert (Hup : forall x, finished st2 x -> finished st' x).
    { intros x [Hx Hnx]. split; [assumption|]. simpl.
      rewrite JsSet_In_delete. tauto. }
    assert (Hdown : forall x, finished st' x -> x <> name -> finished st2 x).
    { intros x [Hx Hnx] Hne. split; [assumption|]. simpl in Hnx.
      rewrite JsSet_In_delete in Hnx. tauto. }
    assert (Hname : finished st' name).
    { split; simpl.
      - rewrite Hext, Hv1, !in_app_iff. simpl. auto.
      - rewrite JsSet_In_delete. tauto. }
    split; [|split].
    + constructor.
      * intros x y Hx Hxy. apply Hup.
        destruct (string_dec x name) as [->|Hne]; [now apply Hsucc|].
        eapply (sc_closed Hc2); eauto.
      * intros x Hx Hcyc.
        destruct (string_dec x name) as [->|Hne].
        -- apply clos_trans_t1n in Hcyc.
           assert (Hy : exists y, R name y /\ clos_refl_trans string R y name).
           { inversion Hcyc as [y Hxy|y z Hxy Hyx]; subst.
             - exists name. split; [assumption | apply rt_refl].
             - exists y. split; [assumption|].
               apply clos_t_clos_rt. now apply clos_t1n_trans. }
           destruct Hy as (y & Hxy & Hyx).
           apply (sc_acyclic Hc2 name);
             [|now apply clos_t1n_trans].
           eapply closed_reach; [eassumption | apply Hsucc, Hxy | assumption].
        -- apply (sc_acyclic Hc2 x); auto.
    + assumption.
    + intros x Hx. apply Hup, Hkeep.
      destruct Hx as [Hx Hnx]. split.
      * rewrite Hv1. apply in_app_iff. now left.
      * simpl. rewrite JsSet_In_add. intros [?| ->]; contradiction.
Qed.

Lemma roots_complete depth names : forall st st',
  for_each (visit_root depth this_nodes include) names st = Some st' ->
  dfs_invariant st -> rec_stack st = [] ->
  (cycles st' = [] -> cycles st = []) /\
  (cycles st' = [] -> search_closed R st ->
   search_closed R st' /\
   (forall name, In name names -> finished st' name) /\
   forall x, finished st x -> finished st' x).
Proof.
  induction names as [|name names IH]; simpl; intros st st' H Hinv Hstack.
  - injection H as <-. split; [auto|]. intros _ Hc.
    split; [assumption|]. split; [intros ? [] | auto].
  - destruct (visit_root depth this_nodes include st name) as [st1|] eqn:E;
      [|discriminate].
    assert (E1 : for_each (visit_root depth this_nodes include) [name] st
                 = Some st1) by (simpl; now rewrite E).
    destruct (roots_ok this_nodes include depth [name] st st1 E1 Hinv Hstack)
      as (Hinv1 & Hstack1).
    destruct (IH st1 st' H Hinv1 Hstack1) as (Hmono & Hmain).
    assert (Hstep :
      (cycles st1 = [] -> cycles st = []) /\
      (cycles st1 = [] -> search_closed R st ->
       search_closed R st1 /\ finished st1 name /\
       forall x, finished st x -> finished st1 x)).
    { unfold visit_root in E.
      destruct (JsSet.has (visited st) name) eqn:Hv; simpl in E.
      - injection E as <-. split; [auto|]. intros _ Hc.
        split; [assumption|]. split; [|auto]. split.
        + now apply JsSet_has_In.
        + rewrite Hstack. intros [].
      - apply JsSet_has_false in Hv.
        eapply dfs_complete; try eassumption.
        + apply subseq_nil_l.
        + rewrite Hstack. apply incl_refl. }
    destruct Hstep as (Hmono1 & Hmain1).
    split; [auto|]. intros Hnil Hc.
    destruct (Hmain1 (Hmono Hnil) Hc) as (Hc1 & Hfin1 & Hkeep1).
    destruct (Hmain Hnil Hc1) as (Hc' & Hfin & Hkeep).
    split; [assumption|]. split; [|auto].
    intros n [<-|Hn]; [now apply Hkeep | now apply Hfin].
Qed.

(** A search that records no cycle ran on nodes without a cycle. *)
Lemma find_cycles_in_complete :
  find_cycles_in this_nodes include = Some [] ->
  forall x, ~ clos_trans string R x x.
Proof.
  unfold find_cycles_in. intros H x Hx.
  destruct (for_each _ (JsMap.keys this_nodes) _) as [st|] eqn:E;
    [|discriminate].
  injection H as Hnil.
  destruct (roots_complete _ _ _ _ E (start_invariant) eq_refl) as (_ & Hmain).
  destruct (Hmain Hnil) as (Hc & Hfin & _).
  { constructor; [intros x' y [[] _] | intros x' [[] _]]. }
  apply (sc_acyclic Hc x); [|assumption].
  apply Hfin. apply clos_trans_t1n in Hx.
  assert (Hkey : exists y, R x y) by (inversion Hx; eauto).
  destruct Hkey as (y & node & spec & Hnode & _).
  apply has_In_keys. eapply get_Some_has; eassumption.
Qed.

Lemma chain_clos_trans (Q : relation string) l : forall x,
  l <> [] -> chain Q (x :: l) -> clos_trans string Q x (last l "").
Proof.
  induction l as [|y l IH]; intros x Hne H; [congruence|].
  destruct l as [|z l].
  - simpl in *. apply t_step. tauto.
  - change (last (y :: z :: l) "") with (last (z :: l) "").
    destruct H as [Hxy H]. eapply t_trans; [apply t_step; eassumption|].
    apply IH; [discriminate | assumption].
Qed.

Lemma closed_walk_cycle (Q : relation string) c :
  closed_walk Q c -> clos_trans string Q (hd "" c) (hd "" c).
Proof.
  intros (Hchain & Hlen & Hends).
  destruct c as [|x [|y l]]; simpl in Hlen; try lia.
  simpl hd in *. rewrite Hends at 2.
  change (last (x :: y :: l) "") with (last (y :: l) "").
  apply chain_clos_trans; [discriminate | assumption].
Qed.

(** The search records nothing exactly when the edges it follows have no
    cycle. *)
Lemma find_cycles_in_empty_iff found :
  find_cycles_in this_nodes include = Some found ->
  found = [] <-> forall x, ~ clos_trans string R x x.
Proof.
  intros H. split.
  - intros ->. now apply find_cycles_in_complete.
  - intros Hacyc. destruct found as [|c found]; [reflexivity|]. exfalso.
    apply (Hacyc (hd "" c)), closed_walk_cycle.
    eapply find_cycles_in_sound; [eassumption | now left].
Qed.

End DfsComplete.

(** ** Cycle detection on a built graph *)

Section GraphCycles.
Import DependencyGraph DependencyGraphBuilder Notions.

Lemma clos_trans_reverse (Q Q' : relation string) x y :
  (forall a b, Q a b -> Q' b a) ->
  clos_trans string Q x y -> clos_trans string Q' y x.
Proof.
  intros Hrev H. induction H as [x y H|x y z _ IH1 _ IH2].
  - apply t_step. now apply Hrev.
  - eapply t_trans; eassumption.
Qed.

Lemma not_dev_true spec :
  not_dev spec = true <-> DependencySpec.type spec <> DEV.
Proof.
  unfold not_dev. rewrite negb_true_iff.
  destruct (DependencyType_eqb (DependencySpec.type spec) DEV) eqn:E.
  - apply DependencyType_eqb_eq in E. split; [discriminate | congruence].
  - split; [|reflexivity]. intros _ H.
    apply DependencyType_eqb_eq in H. congruence.
Qed.

Lemma follows_not_dev g x y :
  well_formed g ->
  follows (nodes g) not_dev x y <-> depends g true y x.
Proof.
  intros Hwf. split.
  - intros (node & spec & Hn & Hin & Hinc & Hhas).
    exists node, spec. split; [assumption|]. split; [|split; [|assumption]].
    + apply In_get; [|assumption].
      eapply (wf_deps Hwf), get_In, Hn.
    + intros _. now apply not_dev_true.
  - intros (node & spec & Hn & Hget & Hty & Hhas).
    exists node, spec. split; [assumption|]. split; [|split; [|assumption]].
    + now apply get_In.
    + apply not_dev_true. now apply Hty.
Qed.

Lemma follows_is_dev g x y :
  well_formed g ->
  follows (nodes g) is_dev x y <-> dev_depends g y x.
Proof.
  intros Hwf. unfold is_dev. split.
  - intros (node & spec & Hn & Hin & Hinc & Hhas).
    exists node, spec. split; [assumption|]. split; [|split; [|assumption]].
    + apply In_get; [|assumption].
      eapply (wf_deps Hwf), get_In, Hn.
    + now apply DependencyType_eqb_eq.
  - intros (node & spec & Hn & Hget & Hty & Hhas).
    exists node, spec. split; [assumption|]. split; [|split; [|assumption]].
    + now apply get_In.
    + now apply DependencyType_eqb_eq.
Qed.

Lemma detect_cycles_by_type_result g :
  result_of detect_cycles_by_type g =
  match find_cycles_in (nodes g) not_dev, find_cycles_in (nodes g) is_dev with
  | Some p, Some d => Some (mk_cycles p d)
  | _, _ => None
  end.
Proof. reflexivity. Qed.

Lemma detect_cycles_by_type_found g :
  exists p d,
    find_cycles_in (nodes g) not_dev = Some p /\
    find_cycles_in (nodes g) is_dev = Some d /\
    result_of detect_cycles_by_type g = Some (mk_cycles p d).
Proof.
  destruct (find_cycles_in_total (nodes g) not_dev) as (p & Hp).
  destruct (find_cycles_in_total (nodes g) is_dev) as (d & Hd).
  exists p, d. rewrite detect_cycles_by_type_result, Hp, Hd. auto.
Qed.

(** X1: every cycle that [detect_cycles_by_type] reports is a cycle of the
    graph: it ends with the node it starts with, lists no other node twice,
    and each of its nodes is stored in the graph and lists the next one among
    its dependencies, with a spec that is not [dev] for a production cycle
    and [dev] for a dev cycle. *)
Theorem reported_cycles_are_cycles_of_the_graph g :
  exists found,
    result_of detect_cycles_by_type g = Some found /\
    (forall c,
       In c (DependencyGraph.production_cycles found) ->
       closed_walk (follows (nodes g) not_dev) c /\ NoDup (removelast c)) /\
    (forall c,
       In c (DependencyGraph.dev_cycles found) ->
       closed_walk (follows (nodes g) is_dev) c /\ NoDup (removelast c)).
Proof.
  destruct (detect_cycles_by_type_found g) as (p & d & Hp & Hd & Hr).
  exists (mk_cycles p d). split; [assumption|].
  assert (Hshape : forall include found c,
            find_cycles_in (nodes g) include = Some found -> In c found ->
            NoDup (removelast c)).
  { intros include found c Hf Hc.
    destruct (find_cycles_in_shape _ _ _ _ Hf Hc) as (s & _ & Hnd & ->).
    now rewrite removelast_last. }
  split; intros c Hc; simpl in Hc; split; eauto using find_cycles_in_sound.
Qed.

Lemma cycle_lists_are_empty_iff_acyclic_aux g :
  well_formed g ->
  exists found,
    result_of detect_cycles_by_type g = Some found /\
    (DependencyGraph.production_cycles found = [] <-> acyclic g true).
Proof.
  intros Hwf.
  destruct (detect_cycles_by_type_found g) as (p & d & Hp & Hd & Hr).
  exists (mk_cycles p d). split; [assumption|]. simpl.
  rewrite (find_cycles_in_empty_iff _ _ _ Hp). unfold acyclic.
  split; intros H x Hx; apply (H x);
    eapply clos_trans_reverse; try eassumption;
    intros a b Hab; now apply (follows_not_dev g) in Hab.
Qed.

(** X2: on a built graph, [production_cycles] is empty exactly when the
    edges that are not [dev] have no cycle, and [dev_cycles] is empty exactly
    when the [dev] edges have none.  A cycle that needs edges of both kinds
    is in neither list. *)
Theorem cycle_lists_are_empty_iff_acyclic repos g :
  build_from_repos repos = Some g ->
  exists found,
    result_of detect_cycles_by_type g = Some found /\
    (DependencyGraph.production_cycles found = [] <-> acyclic g true) /\
    (DependencyGraph.dev_cycles found = [] <->
     forall x, ~ clos_trans string (dev_depends g) x x).
Proof.
  intros Hbuild. pose proof (build_from_repos_wf repos g Hbuild) as Hwf.
  destruct (detect_cycles_by_type_found g) as (p & d & Hp & Hd & Hr).
  exists (mk_cycles p d). split; [assumption|]. simpl. split.
  - rewrite (find_cycles_in_empty_iff _ _ _ Hp). unfold acyclic.
    split; intros H x Hx; apply (H x);
      eapply clos_trans_reverse; try eassumption;
      intros a b Hab; now apply (follows_not_dev g) in Hab.
  - rewrite (find_cycles_in_empty_iff _ _ _ Hd).
    split; intros H x Hx; apply (H x);
      eapply clos_trans_reverse; try eassumption;
      intros a b Hab; now apply (follows_is_dev g) in Hab.
Qed.

Lemma cycle_lists_are_empty_iff_acyclic_witness :
  acyclic Scenario.graph_mixed true /\
  forall x, ~ clos_trans string (dev_depends Scenario.graph_mixed) x x.
Proof.
  destruct (cycle_lists_are_empty_iff_acyclic Scenario.mixed
              Scenario.graph_mixed eq_refl) as (found & Hr & Hp & Hd).
  vm_compute in Hr. injection Hr as <-.
  split; [apply Hp | apply Hd]; reflexivity.
Defined.

(** X3: on a built graph, [production_cycles] is empty exactly when
    [compute_publishing_order] returns an order (with the sort of
    [@fuzdev/fuz_util/sort.js] as modelled): the diagnostic and the sort
    agree on whether publishing is possible. *)
Theorem no_production_cycle_iff_publishing_order repos g :
  build_from_repos repos = Some g ->
  exists found,
    result_of detect_cycles_by_type g = Some found /\
    (DependencyGraph.production_cycles found = [] <->
     exists order, result_of compute_publishing_order g = Return order).
Proof.
  intros Hbuild. pose proof (build_from_repos_wf repos g Hbuild) as Hwf.
  destruct (cycle_lists_are_empty_iff_acyclic_aux g Hwf) as (found & Hr & Hp).
  exists found. split; [assumption|]. rewrite Hp. split.
  - intros Hacyc.
    destruct (topological_sort_returns g true Hwf Hacyc) as (order & Ho & _).
    eauto.
  - intros (order & Ho).
    eapply topological_sort_return_acyclic; eassumption.
Qed.

Lemma no_production_cycle_iff_publishing_order_witness :
  exists order,
    result_of compute_publishing_order Scenario.graph_mixed = Return order.
Proof.
  destruct (no_production_cycle_iff_publishing_order Scenario.mixed
              Scenario.graph_mixed eq_refl) as (found & Hr & Hiff).
  vm_compute in Hr. injection Hr as <-.
  apply Hiff. reflexivity.
Defined.

End GraphCycles.

(** ** Construction: names, nodes and dependents *)

Section Construction.
Import DependencyGraph DependencyGraphBuilder Notions.

Lemma In_keys_set (V : Type) (m : JsMap.t V) k v x :
  In x (JsMap.keys (JsMap.set m k v)) <-> In x (JsMap.keys m) \/ x = k.
Proof.
  destruct (JsMap.has m k) eqn:E.
  - rewrite keys_set_present by assumption. apply has_In_keys in E.
    split; [auto | intros [?| ->]; assumption].
  - rewrite keys_set_absent, in_app_iff by assumption. simpl. intuition.
Qed.

Lemma first_pass_keys_in repos : forall g k,
  In k (JsMap.keys (nodes (first_pass g repos))) <->
  In k (JsMap.keys (nodes g)) \/
  exists repo, In repo repos /\ Library.name (LocalRepo.library repo) = k.
Proof.
  unfold first_pass. induction repos as [|r repos IH]; simpl; intros g k.
  - split; [auto | intros [?|(? & [] & _)]; assumption].
  - rewrite IH. simpl. rewrite In_keys_set. split.
    + intros [[?| ->]|(repo & ? & ?)]; eauto.
    + intros [?|(repo & [<-|?] & <-)]; eauto.
Qed.

Lemma first_pass_keys_fresh repos : forall g,
  NoDup (map (fun r => Library.name (LocalRepo.library r)) repos) ->
  (forall r, In r repos ->
     ~ In (Library.name (LocalRepo.library r)) (JsMap.keys (nodes g))) ->
  JsMap.keys (nodes (first_pass g repos)) =
  JsMap.keys (nodes g) ++
  map (fun r => Library.name (LocalRepo.library r)) repos.
Proof.
  unfold first_pass. induction repos as [|r repos IH]; simpl; intros g Hnd Hnew.
  - now rewrite app_nil_r.
  - inversion Hnd as [|? ? Hnot Hnd']; subst.
    rewrite IH; simpl.
    + rewrite keys_set_absent, <- app_assoc; [reflexivity|].
      apply has_false_not_In, Hnew. now left.
    + assumption.
    + intros r' Hr'. rewrite In_keys_set. intros [H|H].
      * apply (Hnew r'); auto.
      * apply Hnot. apply in_map_iff. exists r'. auto.
Qed.

(** X4: the nodes of a built graph are the repo names: every repo name is a
    key of [nodes], every key is a repo name, no key is repeated, [edges] has
    the same keys, every node is stored under its own name, and when the
    repo names are pairwise different the keys are the names in the order of
    the repos. *)
Theorem nodes_are_the_repo_names repos :
  exists g,
    build_from_repos repos = Some g /\
    NoDup (JsMap.keys (nodes g)) /\
    JsMap.keys (edges g) = JsMap.keys (nodes g) /\
    (forall k,
       In k (JsMap.keys (nodes g)) <->
       exists repo,
         In repo repos /\ Library.name (LocalRepo.library repo) = k) /\
    (forall k node,
       result_of (get_node k) g = Some node -> DependencyNode.name node = k) /\
    (NoDup (map (fun r => Library.name (LocalRepo.library r)) repos) ->
     JsMap.keys (nodes g) =
     map (fun r => Library.name (LocalRepo.library r)) repos).
Proof.
  destruct (build_from_repos_steps repos) as (g & Hbuild & Hstep).
  pose proof (build_from_repos_wf repos g Hbuild) as Hwf.
  exists g. split; [assumption|]. split; [apply Hwf|].
  split; [apply Hwf|]. split; [|split].
  - intros k. rewrite (ps_nodes Hstep), first_pass_keys_in. simpl.
    split; [intros [[]|?]; assumption | auto].
  - intros k node Hnode. eapply (wf_names Hwf), get_In, Hnode.
  - intros Hnd. rewrite (ps_nodes Hstep), first_pass_keys_fresh; auto.
Qed.

(** X5: when several repos have the same name, the node of that name is
    built from the last of them: it refers to that repo, has its version
    (when it is not empty), is publishable unless that manifest is marked
    private, and has its merged dependencies. *)
Theorem node_is_built_from_the_last_repo l1 repo l2 :
  (forall later,
     In later l2 ->
     Library.name (LocalRepo.library later)
     <> Library.name (LocalRepo.library repo)) ->
  let manifest := Library.package_json (LocalRepo.library repo) in
  exists g node,
    build_from_repos (l1 ++ repo :: l2) = Some g /\
    result_of (get_node (Library.name (LocalRepo.library repo))) g
    = Some node /\
    DependencyNode.repo node = Some repo /\
    (forall v, PackageJson.version manifest = Some v -> v <> "" ->
               DependencyNode.version node = v) /\
    (DependencyNode.publishable node = false <->
     PackageJson.private manifest = Some true) /\
    DependencyNode.dependencies node = merge_dependencies manifest.
Proof.
  intros Hlast manifest.
  destruct (build_from_repos_steps (l1 ++ repo :: l2)) as (g & Hbuild & Hstep).
  pose proof (first_pass_last l1 repo l2 DependencyGraph.new Hlast) as Hfirst.
  destruct (pass_step_node_back _ _ _ _ _ Hstep Hfirst) as (node & Hnode & Hdecl).
  exists g, node. split; [assumption|]. split; [exact Hnode|].
  unfold declared in Hdecl. simpl in Hdecl.
  injection Hdecl as Hname Hversion Hrepo Hdeps Hpub.
  rewrite <- Hrepo, <- Hversion, <- Hpub, <- Hdeps. fold manifest.
  split; [reflexivity|]. split; [|split; [|reflexivity]].
  - intros v -> Hv. simpl. apply String.eqb_neq in Hv. now rewrite Hv.
  - unfold is_publishable.
    destruct (PackageJson.private manifest) as [[|]|]; split; congruence.
Qed.

Lemma node_is_built_from_the_last_repo_witness :
  exists node,
    result_of (get_node "a") Scenario.graph_same_name = Some node /\
    DependencyNode.version node = "2.0.0" /\
    DependencyNode.publishable node = false.
Proof.
  destruct (node_is_built_from_the_last_repo
              [Scenario.package "a" (Some "1.0.0") None None None;
               Scenario.package "b" (Some "1.0.0") None None None]
              (LocalRepo.mk
                 (Library.mk "a"
                    (PackageJson.mk (Some "2.0.0") (Some true)
                       (Some [("b", "*")]) None None)))
              [])
    as (g & node & Hb & Hnode & _ & Hv & Hp & _).
  - intros later [].
  - change (build_from_repos Scenario.same_name = Some g) in Hb.
    assert (Hg : build_from_repos Scenario.same_name
                 = Some Scenario.graph_same_name) by reflexivity.
    rewrite Hg in Hb. injection Hb as <-.
    exists node. split; [exact Hnode|]. split.
    + apply Hv; [reflexivity | discriminate].
    + apply Hp. reflexivity.
Defined.

Lemma JsSet_add_NoDup s x : NoDup s -> NoDup (JsSet.add s x).
Proof.
  intros H. unfold JsSet.add. destruct (JsSet.has s x) eqn:E; [assumption|].
  apply JsSet_has_false in E.
  apply NoDup_app; [assumption | repeat constructor; simpl; tauto |].
  intros y Hy [<-|[]]. contradiction.
Qed.

Lemma pairs_edges_NoDup ps : forall g g',
  for_each (fun g p => add_edge (fst p) g (snd p)) ps g = Some g' ->
  (forall k tos, In (k, tos) (edges g) -> NoDup tos) ->
  forall k tos, In (k, tos) (edges g') -> NoDup tos.
Proof.
  induction ps as [|[m n] ps IH]; simpl; intros g g' H Hnd.
  - now injection H as <-.
  - destruct (add_edge m g n) as [g1|] eqn:E; [|discriminate].
    apply (IH g1 g' H). unfold add_edge in E.
    destruct (JsMap.get (nodes g) n) as [dep_node|];
      [|now injection E as <-].
    destruct (JsMap.get (edges g) n) as [tos0|] eqn:He; [|discriminate].
    injection E as <-. simpl. intros k tos Hin.
    apply In_set in Hin. destruct Hin as [[_ ->]|Hin]; [|eauto].
    apply JsSet_add_NoDup. eapply Hnd, get_In, He.
Qed.

(** X6: on a built graph the two queries mirror each other:
    [get_dependents(n)] contains [m] exactly when [n] is a node and
    [get_dependencies(m)] has the key [n], whatever the type of the
    dependency; and [get_dependents(n)] lists no name twice. *)
Theorem dependents_mirror_dependencies repos g n m :
  build_from_repos repos = Some g ->
  (In m (result_of (get_dependents n) g) <->
   JsMap.has (nodes g) n = true /\
   JsMap.has (result_of (get_dependencies m) g) n = true) /\
  NoDup (result_of (get_dependents n) g).
Proof.
  intros Hbuild. split.
  - change (result_of (get_dependents n) g) with (edges_of g n).
    rewrite (build_from_repos_edges repos g n m Hbuild).
    unfold result_of, get_dependencies, bind, read, ret. simpl.
    split; intros [Hn H]; (split; [assumption|]).
    + destruct H as (node & -> & H). assumption.
    + destruct (JsMap.get (nodes g) m) as [node|]; [eauto | discriminate].
  - change (result_of (get_dependents n) g) with (edges_of g n).
    unfold edges_of.
    destruct (JsMap.get (edges g) n) as [tos|] eqn:He; [|constructor].
    unfold build_from_repos, init_from_repos, second_pass in Hbuild.
    rewrite second_pass_flat in Hbuild.
    eapply pairs_edges_NoDup; [exact Hbuild | | apply get_In, He].
    intros k tos' Hin.
    rewrite (first_pass_no_edges repos DependencyGraph.new
               (fun _ _ (H : In _ []) => match H with end) k tos' Hin).
    constructor.
Qed.

Lemma dependents_mirror_dependencies_witness :
  In "a" (result_of (get_dependents "b") Scenario.graph_mixed) /\
  In "b" (result_of (get_dependents "a") Scenario.graph_mixed).
Proof.
  assert (Hb : build_from_repos Scenario.mixed = Some Scenario.graph_mixed)
    by reflexivity.
  split.
  - apply (dependents_mirror_dependencies _ _ "b" "a" Hb). split; reflexivity.
  - apply (dependents_mirror_dependencies _ _ "a" "b" Hb). split; reflexivity.
Defined.

(** X7: [topological_sort] hands the generic sort one item per node, with the
    node names as ids in the order of [nodes] and without repetition, and
    every name in an item's [depends_on] is the id of an item and a kept
    dependency of the item's node. *)
Theorem sort_items_name_only_items repos g exclude_dev :
  build_from_repos repos = Some g ->
  let items := sort_items (nodes g) exclude_dev in
  Sort.ids items = JsMap.keys (nodes g) /\
  NoDup (Sort.ids items) /\
  forall item d,
    In item items -> In d (Sort.depends_on item) ->
    In d (Sort.ids items) /\ depends g exclude_dev d (Sort.id item).
Proof.
  intros Hbuild items. pose proof (build_from_repos_wf repos g Hbuild) as Hwf.
  split; [now apply sort_items_ids|]. split; [now apply sort_items_unique|].
  intros item d Hitem Hd.
  assert (Hid : In d (Sort.ids items)).
  { unfold items in *. rewrite sort_items_ids by assumption.
    unfold sort_items in Hitem. apply in_map_iff in Hitem.
    destruct Hitem as (node & <- & _). simpl in Hd.
    apply in_map_iff in Hd. destruct Hd as (e & <- & He).
    apply filter_In in He. destruct He as [_ He].
    apply retained_true in He. now apply has_In_keys. }
  split; [assumption|].
  apply (needs_depends g exclude_dev d (Sort.id item) Hwf).
  exists item. auto.
Qed.

Lemma sort_items_name_only_items_witness :
  Sort.ids (sort_items (nodes Scenario.graph_D) true) = ["a"] /\
  forall item,
    In item (sort_items (nodes Scenario.graph_D) true) ->
    Sort.depends_on item = [].
Proof.
  assert (Hb : build_from_repos Scenario.D = Some Scenario.graph_D)
    by reflexivity.
  destruct (sort_items_name_only_items _ _ true Hb) as (Hids & _ & Hdeps).
  split; [exact Hids|].
  intros item Hitem. destruct (Sort.depends_on item) as [|d ds] eqn:E;
    [reflexivity|].
  destruct (Hdeps item d Hitem) as (Hd & _); [rewrite E; now left|].
  rewrite Hids in Hd. destruct Hd as [<-|[]].
  destruct Hitem as [<-|[]]. discriminate E.
Defined.

End Construction.

(** ** The snapshot of [toJSON] *)

Section Snapshot.
Import DependencyGraph DependencyGraphBuilder Notions.

Lemma toJSON_edges g from to :
  In (DependencyGraphJson.mk_edge from to)
     (DependencyGraphJson.edges (result_of toJSON g)) <->
  exists tos, In (from, tos) (edges g) /\ In to tos.
Proof.
  unfold result_of, toJSON, bind, read, ret. simpl.
  rewrite in_flat_map. split.
  - intros ([k tos] & Hin & H). simpl in H. apply in_map_iff in H.
    destruct H as (to' & [= <- <-] & Hto). eauto.
  - intros (tos & Hin & Hto). exists (from, tos). split; [assumption|].
    simpl. apply in_map_iff. eauto.
Qed.

(** X8: the snapshot of a built graph agrees with the queries: its nodes are
    the graph's nodes in order, each with the version, the publishable flag,
    the dependencies and the dependents that the graph holds for that name,
    and it has an edge from [n] to [m] exactly when [m] is in
    [get_dependents(n)]. *)
Theorem snapshot_agrees_with_the_queries repos g :
  build_from_repos repos = Some g ->
  let json := result_of toJSON g in
  map DependencyGraphJson.name (DependencyGraphJson.nodes json)
  = JsMap.keys (nodes g) /\
  (forall entry,
     In entry (DependencyGraphJson.nodes json) ->
     exists node,
       result_of (get_node (DependencyGraphJson.name entry)) g = Some node /\
       DependencyGraphJson.version entry = DependencyNode.version node /\
       DependencyGraphJson.publishable entry = DependencyNode.publishable node /\
       DependencyGraphJson.dependencies entry =
       JsMap.entries
         (result_of (get_dependencies (DependencyGraphJson.name entry)) g) /\
       DependencyGraphJson.dependents entry =
       result_of (get_dependents (DependencyGraphJson.name entry)) g) /\
  (forall n m,
     In (DependencyGraphJson.mk_edge n m) (DependencyGraphJson.edges json) <->
     In m (result_of (get_dependents n) g)).
Proof.
  intros Hbuild json. pose proof (build_from_repos_wf repos g Hbuild) as Hwf.
  split; [|split].
  - unfold json, result_of, toJSON, bind, read, ret. simpl.
    unfold JsMap.values, JsMap.keys. rewrite !map_map.
    apply map_ext_in. intros [k node] Hin. simpl. now apply (wf_names Hwf).
  - intros entry Hentry.
    unfold json, result_of, toJSON, bind, read, ret in Hentry. simpl in Hentry.
    apply in_map_iff in Hentry. destruct Hentry as (node & <- & Hnode).
    apply In_values_get in Hnode. destruct Hnode as (k & Hk).
    pose proof (wf_names Hwf _ _ Hk) as Hname.
    apply In_get in Hk; [|apply Hwf]. simpl. rewrite Hname.
    exists node. split; [exact Hk|]. split; [reflexivity|].
    split; [reflexivity|]. split.
    + unfold result_of, get_dependencies, bind, read, ret. simpl.
      now rewrite Hk.
    + change (result_of (get_dependents k) g) with (edges_of g k).
      rewrite <- (build_from_repos_dependents repos g k Hbuild).
      unfold dependents_of. now rewrite Hk.
  - intros n m. unfold json. rewrite toJSON_edges.
    change (result_of (get_dependents n) g) with (edges_of g n).
    unfold edges_of. split.
    + intros (tos & Hin & Hm). apply In_get in Hin.
      * now rewrite Hin.
      * rewrite (wf_edges Hwf). apply Hwf.
    + destruct (JsMap.get (edges g) n) as [tos|] eqn:He; [|intros []].
      intros Hm. exists tos. split; [now apply get_In | assumption].
Qed.

Lemma snapshot_agrees_with_the_queries_witness :
  map DependencyGraphJson.name
      (DependencyGraphJson.nodes (result_of toJSON Scenario.graph_A))
  = ["a"; "b"] /\
  In (DependencyGraphJson.mk_edge "b" "a")
     (DependencyGraphJson.edges (result_of toJSON Scenario.graph_A)).
Proof.
  assert (Hb : build_from_repos Scenario.A = Some Scenario.graph_A)
    by reflexivity.
  destruct (snapshot_agrees_with_the_queries _ _ Hb) as (Hnames & _ & Hedges).
  split; [exact Hnames|]. apply Hedges. now left.
Defined.

End Snapshot.


(** ** The findings of [analyze], in order *)

Section Findings.
Import DependencyGraph DependencyGraphBuilder Notions.

Variable graph_nodes : JsMap.t DependencyNode.t.

Lemma scan_dep_lists node acc e :
  scan_dep graph_nodes node acc e =
  (fst acc ++ wildcard_of node e, snd acc ++ missing_peer_of graph_nodes node e).
Proof.
  unfold scan_dep, wildcard_of, missing_peer_of.
  destruct e as [dep_name spec], acc as [ws ms]. simpl.
  destruct (String.eqb (DependencySpec.version spec) "*");
    destruct (DependencyType_eqb (DependencySpec.type spec) PEER
              && negb (JsMap.has graph_nodes dep_name));
    simpl; now rewrite ?app_nil_r.
Qed.

Lemma scan_node_lists node : forall acc,
  scan_node graph_nodes acc node =
  (fst acc ++
   flat_map (wildcard_of node)
            (JsMap.entries (DependencyNode.dependencies node)),
   snd acc ++
   flat_map (missing_peer_of graph_nodes node)
            (JsMap.entries (DependencyNode.dependencies node))).
Proof.
  unfold scan_node, JsMap.entries.
  induction (DependencyNode.dependencies node) as [|e es IH]; intros acc; simpl.
  - rewrite !app_nil_r. now destruct acc.
  - rewrite IH, scan_dep_lists. simpl. now rewrite <- !app_assoc.
Qed.

Lemma scan_lists ns : forall acc,
  fold_left (scan_node graph_nodes) ns acc =
  (fst acc ++
   flat_map (fun node =>
               flat_map (wildcard_of node)
                 (JsMap.entries (DependencyNode.dependencies node))) ns,
   snd acc ++
   flat_map (fun node =>
               flat_map (missing_peer_of graph_nodes node)
                 (JsMap.entries (DependencyNode.dependencies node))) ns).
Proof.
  induction ns as [|node ns IH]; intros acc; simpl.
  - rewrite !app_nil_r. now destruct acc.
  - rewrite IH, scan_node_lists. simpl. now rewrite <- !app_assoc.
Qed.

End Findings.

(** A concatenation has no repetition when its parts have none and elements
    of different parts differ in a key. *)
Lemma NoDup_flat_map_by_key (A B K : Type) (f : A -> list B)
    (tag : A -> K) (key : B -> K) l :
  NoDup (map tag l) ->
  (forall x, In x l -> NoDup (f x)) ->
  (forall x z, In x l -> In z (f x) -> key z = tag x) ->
  NoDup (flat_map f l).
Proof.
  induction l as [|a l IH]; simpl; intros Hnd Hpart Hkey.
  - constructor.
  - inversion Hnd as [|? ? Hnot Hnd']; subst.
    apply NoDup_app; [now apply Hpart; left | apply IH; auto |].
    intros z Hz Hz'. apply in_flat_map in Hz'. destruct Hz' as (y & Hy & Hzy).
    apply Hnot. rewrite <- (Hkey a z (or_introl eq_refl) Hz).
    rewrite (Hkey y z (or_intror Hy) Hzy). now apply in_map.
Qed.

Section FindingsOnce.
Import DependencyGraph DependencyGraphBuilder Notions.

Lemma analyze_result g :
  exists found,
    result_of detect_cycles_by_type g = Some found /\
    result_of analyze g =
    Some (mk_analysis
            (DependencyGraph.production_cycles found)
            (DependencyGraph.dev_cycles found)
            (flat_map (fun node =>
                         flat_map (wildcard_of node)
                           (JsMap.entries (DependencyNode.dependencies node)))
                      (JsMap.values (nodes g)))
            (flat_map (fun node =>
                         flat_map (missing_peer_of (nodes g) node)
                           (JsMap.entries (DependencyNode.dependencies node)))
                      (JsMap.values (nodes g)))).
Proof.
  destruct (detect_cycles_reports_found g) as (found & Hfound).
  exists found. split; [assumption|].
  unfold result_of, analyze, bind, read, ret.
  unfold result_of in Hfound.
  pose proof (read_only_detect_cycles_by_type g) as Hsame.
  unfold state_after in Hsame.
  destruct (detect_cycles_by_type g) as [r g']. simpl in *. subst.
  now rewrite scan_lists.
Qed.

(** X9: [analyze] of a built graph reports the cycles that
    [detect_cycles_by_type] finds and names each finding once: no two
    entries of [wildcard_deps] and no two entries of [missing_peers] have the
    same package and dependency. *)
Theorem analysis_names_each_finding_once repos g :
  build_from_repos repos = Some g ->
  exists found report,
    result_of detect_cycles_by_type g = Some found /\
    result_of analyze g = Some report /\
    production_cycles report = DependencyGraph.production_cycles found /\
    dev_cycles report = DependencyGraph.dev_cycles found /\
    NoDup (map (fun w => (pkg w, dep w)) (wildcard_deps report)) /\
    NoDup (map (fun m => (peer_pkg m, peer_dep m)) (missing_peers report)).
Proof.
  intros Hbuild. pose proof (build_from_repos_wf repos g Hbuild) as Hwf.
  destruct (analyze_result g) as (found & Hfound & Hreport).
  eexists found, _. split; [assumption|]. split; [exact Hreport|]. simpl.
  split; [reflexivity|]. split; [reflexivity|].
  assert (Hnames : NoDup (map DependencyNode.name (JsMap.values (nodes g)))).
  { replace (map DependencyNode.name (JsMap.values (nodes g)))
      with (JsMap.keys (nodes g)); [apply Hwf|].
    unfold JsMap.values, JsMap.keys. rewrite map_map. apply map_ext_in.
    intros [k node] Hin. simpl. symmetry. now apply (wf_names Hwf). }
  assert (Hdeps : forall node, In node (JsMap.values (nodes g)) ->
            NoDup (map fst (JsMap.entries (DependencyNode.dependencies node)))).
  { intros node Hnode. apply In_values_get in Hnode.
    destruct Hnode as (k & Hk). exact (wf_deps Hwf _ _ Hk). }
  split.
  - rewrite flat_map_concat_map, concat_map, map_map, <- flat_map_concat_map.
    apply (NoDup_flat_map_by_key _ _ _ _ DependencyNode.name fst);
      [assumption | |].
    + intros node Hnode.
      rewrite flat_map_concat_map, concat_map, map_map, <- flat_map_concat_map.
      apply (NoDup_flat_map_by_key _ _ _ _ fst snd); [now apply Hdeps | |].
      * intros e _. unfold wildcard_of.
        destruct (String.eqb _ _); simpl; repeat constructor; simpl; tauto.
      * intros e z _ Hz. unfold wildcard_of in Hz.
        destruct (String.eqb _ _); simpl in Hz; [|destruct Hz].
        destruct Hz as [<-|[]]. reflexivity.
    + intros node z _ Hz. apply in_map_iff in Hz.
      destruct Hz as (w & <- & Hw). apply in_flat_map in Hw.
      destruct Hw as (e & _ & Hw). unfold wildcard_of in Hw.
      destruct (String.eqb _ _); simpl in Hw; [|destruct Hw].
      destruct Hw as [<-|[]]. reflexivity.
  - rewrite flat_map_concat_map, concat_map, map_map, <- flat_map_concat_map.
    apply (NoDup_flat_map_by_key _ _ _ _ DependencyNode.name fst);
      [assumption | |].
    + intros node Hnode.
      rewrite flat_map_concat_map, concat_map, map_map, <- flat_map_concat_map.
      apply (NoDup_flat_map_by_key _ _ _ _ fst snd); [now apply Hdeps | |].
      * intros e _. unfold missing_peer_of.
        destruct (_ && _); simpl; repeat constructor; simpl; tauto.
      * intros e z _ Hz. unfold missing_peer_of in Hz.
        destruct (_ && _); simpl in Hz; [|destruct Hz].
        destruct Hz as [<-|[]]. reflexivity.
    + intros node z _ Hz. apply in_map_iff in Hz.
      destruct Hz as (w & <- & Hw). apply in_flat_map in Hw.
      destruct Hw as (e & _ & Hw). unfold missing_peer_of in Hw.
      destruct (_ && _); simpl in Hw; [|destruct Hw].
      destruct Hw as [<-|[]]. reflexivity.
Qed.

Lemma analysis_names_each_finding_once_witness :
  exists report,
    result_of analyze Scenario.graph_D = Some report /\
    NoDup (map (fun w => (pkg w, dep w)) (wildcard_deps report)).
Proof.
  destruct (analysis_names_each_finding_once Scenario.D Scenario.graph_D
              eq_refl) as (found & report & _ & Hr & _ & _ & Hw & _).
  exists report. split; assumption.
Defined.

End FindingsOnce.

(** ** The task [gitops_run] *)

Section GitopsRunFacts.
Import GitopsRun.

Variable Duration : Type.
Variable zero_ms : Duration.

Local Abbreviation Result := (RunResult Duration).




(** X11: when [map_concurrent_settled] delivers, for every repo, the result
    of the mapped function, [run] on a non-empty list of repos throws exactly
    when some command did not exit ok or could not be spawned, and the error
    names the number of such repos. *)
Theorem run_throws_iff_a_command_failed repo_paths
    (jobs : list (RepoPath * Attempt * Duration)) :
  repo_paths <> [] ->
  let results :=
    map (fun j => fulfilled (run_in_repo (fst (fst j)) (snd (fst j)) (snd j)))
        jobs in
  let bad :=
    filter (fun j => match snd (fst j) with
                     | resolved spawned => negb (ok spawned)
                     | threw _ => true
                     end) jobs in
  (thrown (run zero_ms repo_paths results) = None <->
   forall j, In j jobs ->
             exists spawned,
               snd (fst j) = resolved spawned /\ ok spawned = true) /\
  (bad <> [] ->
   thrown (run zero_ms repo_paths results) =
   Some (mk_TaskError (decimal (List.length bad) ++ " repos failed"))).
Proof.
  intros Hne results bad.
  assert (Hfail : forall (acc : list Result * list Result),
            List.length (snd (fold_left (collect_step zero_ms)
                                (map (fun j => fulfilled
                                        (run_in_repo (fst (fst j))
                                           (snd (fst j)) (snd j))) jobs) acc))
            = List.length (snd acc) +
              List.length
                (filter (fun j => match snd (fst j) with
                                  | resolved spawned => negb (ok spawned)
                                  | threw _ => true
                                  end) jobs)).
  { induction jobs as [|[[repo attempt] elapsed] js IH]; intros acc; simpl.
    - lia.
    - rewrite IH. destruct attempt as [spawned|text]; simpl.
      + destruct (ok spawned); simpl; rewrite ?length_app; simpl; lia.
      + rewrite length_app. simpl. lia. }
  assert (Hcount : List.length (snd (collect zero_ms results))
                   = List.length bad).
  { unfold collect, results, bad. now rewrite Hfail. }
  assert (Hthrown :
            thrown (run zero_ms repo_paths results) =
            if Nat.ltb 0 (List.length bad)
            then Some (mk_TaskError
                         (decimal (List.length bad) ++ " repos failed"))
            else None).
  { unfold run. destruct repo_paths as [|p ps]; [congruence|].
    simpl Nat.eqb. cbv iota. cbn [thrown]. now rewrite Hcount. }
  rewrite Hthrown. clear Hthrown Hcount Hfail.
  split.
  - split.
    + intros Hnone j Hj.
      assert (Hbad : bad = []).
      { destruct bad; [reflexivity | discriminate Hnone]. }
      destruct (snd (fst j)) as [spawned|text] eqn:E.
      * exists spawned. split; [reflexivity|].
        destruct (ok spawned) eqn:Hok; [reflexivity|]. exfalso.
        assert (Hin : In j bad).
        { apply filter_In. split; [assumption|]. now rewrite E, Hok. }
        rewrite Hbad in Hin. destruct Hin.
      * exfalso. assert (Hin : In j bad).
        { apply filter_In. split; [assumption|]. now rewrite E. }
        rewrite Hbad in Hin. destruct Hin.
    + intros Hall.
      assert (Hbad : bad = []).
      { destruct bad as [|j rest] eqn:E; [reflexivity|]. exfalso.
        assert (Hin : In j bad) by (rewrite E; now left).
        apply filter_In in Hin. destruct Hin as [Hj Hb].
        destruct (Hall j Hj) as (spawned & Hs & Hok).
        rewrite Hs, Hok in Hb. discriminate. }
      now rewrite Hbad.
  - intros Hbad. destruct bad; [congruence | reflexivity].
Qed.

End GitopsRunFacts.

Section GitopsRunExample.
Import GitopsRun.

Lemma run_throws_iff_a_command_failed_witness :
  thrown
    (run 0 [mk_repo "a" "/repos/a"; mk_repo "b" "/repos/b"]
       [fulfilled
          (run_in_repo (mk_repo "a" "/repos/a")
             (resolved (mk_spawned true (Some 0%Z) (Some "ok") None)) 12);
        fulfilled
          (run_in_repo (mk_repo "b" "/repos/b")
             (resolved (mk_spawned false None None (Some "killed"))) 7)])
  = Some (mk_TaskError "1 repos failed").
Proof.
  assert (Hne : [mk_repo "a" "/repos/a"; mk_repo "b" "/repos/b"] <> [])
    by discriminate.
  destruct (run_throws_iff_a_command_failed nat 0
              [mk_repo "a" "/repos/a"; mk_repo "b" "/repos/b"]
              [(mk_repo "a" "/repos/a",
                resolved (mk_spawned true (Some 0%Z) (Some "ok") None), 12);
               (mk_repo "b" "/repos/b",
                resolved (mk_spawned false None None (Some "killed")), 7)]
              Hne) as (_ & Hbad).
  apply Hbad. discriminate.
Defined.

End GitopsRunExample.
